(** * presetify: the adjustment model, the tone-curve codec, the metadata
      importer, the preset exporter and the tone-curve preview

    A shallow embedding of [models.py], [metadata.py], [xmp.py] and the
    tone-curve widget of [widgets.py], followed by the properties of the
    specification that are settled on it.

    Python values are embedded as the inductive [pyval]; Python integers are
    [Z]; floats are IEEE binary64 values in the representation of
    [SpecFloat]; text is [string], read as ASCII; dictionaries are [gmap]s;
    exceptions are the type [exn], carried by [result]. *)

From Stdlib Require Import ZArith String Ascii List Lia Bool.
From Stdlib Require Import Floats.SpecFloat.
From stdpp Require Import base option gmap strings list fin_maps.
Import ListNotations.

#[local] Set Warnings "-register-all".
#[local] Open Scope string_scope.
#[local] Open Scope Z_scope.

(** ** Part I. The embedding *)

(** *** Python values, exceptions and built-ins *)
Module Py.

Inductive exn : Type :=
  | ValueError
  | TypeError
  | OverflowError
  | IndexError
  | KeyError
  | ToolError (msg : string).

Inductive result (A : Type) : Type :=
  | Ok (a : A)
  | Raise (e : exn).
Arguments Ok {A} a.
Arguments Raise {A} e.

Definition rbind {A B} (r : result A) (k : A -> result B) : result B :=
  match r with
  | Ok a => k a
  | Raise e => Raise e
  end.

Fixpoint rmap_list {A B} (f : A -> result B) (l : list A) : result (list B) :=
  match l with
  | [] => Ok []
  | a :: r =>
      rbind (f a) (fun b => rbind (rmap_list f r) (fun bs => Ok (b :: bs)))
  end.

Inductive pyval : Type :=
  | VNone
  | VBool (b : bool)
  | VInt (z : Z)
  | VFloat (f : spec_float)
  | VStr (s : string)
  | VList (l : list pyval)
  | VDict (d : gmap string pyval).

Definition is_none (v : pyval) : bool :=
  match v with VNone => true | _ => false end.

(** [bool(v)] *)
Definition truthy (v : pyval) : bool :=
  match v with
  | VNone => false
  | VBool b => b
  | VInt z => negb (z =? 0)
  | VFloat (S754_zero _) => false
  | VFloat _ => true
  | VStr s => negb (String.eqb s "")
  | VList l => match l with [] => false | _ => true end
  | VDict d => negb (bool_decide (d = ∅))
  end.

(** **** Text *)

Definition code (c : ascii) : Z := Z.of_N (N_of_ascii c).

Definition is_digit (c : ascii) : bool := (48 <=? code c) && (code c <=? 57).

Definition digit_val (c : ascii) : Z := code c - 48.

Definition digit_char (d : Z) : ascii := ascii_of_N (Z.to_N (48 + d)).

(** The whitespace of [str.strip], within ASCII: tab to carriage return,
    the four separators and the space. *)
Definition is_space (c : ascii) : bool :=
  ((9 <=? code c) && (code c <=? 13)) ||
  ((28 <=? code c) && (code c <=? 32)).

(** The whitespace that [int] skips around an ASCII literal: the four
    separators are not part of it. *)
Definition is_c_space (c : ascii) : bool :=
  ((9 <=? code c) && (code c <=? 13)) || (code c =? 32).

Fixpoint lstrip_with (sp : ascii -> bool) (s : string) : string :=
  match s with
  | String c r => if sp c then lstrip_with sp r else s
  | EmptyString => EmptyString
  end.

Fixpoint rstrip_with (sp : ascii -> bool) (s : string) : string :=
  match s with
  | EmptyString => EmptyString
  | String c r =>
      match rstrip_with sp r with
      | EmptyString => if sp c then EmptyString else String c EmptyString
      | r' => String c r'
      end
  end.

Definition strip_with (sp : ascii -> bool) (s : string) : string :=
  rstrip_with sp (lstrip_with sp s).

(** [s.strip()] *)
Definition strip (s : string) : string := strip_with is_space s.

(** [s.split(sep)] for a one-character separator. *)
Fixpoint split (sep : ascii) (s : string) : list string :=
  match s with
  | EmptyString => [EmptyString]
  | String c r =>
      if Ascii.eqb c sep then EmptyString :: split sep r
      else match split sep r with
           | h :: t => String c h :: t
           | [] => [String c EmptyString]
           end
  end.

(** [sep.join(l)] *)
Fixpoint join (sep : string) (l : list string) : string :=
  match l with
  | [] => EmptyString
  | [a] => a
  | a :: r => a ++ sep ++ join sep r
  end.

(** [s.lower()] *)
Definition lower_char (c : ascii) : ascii :=
  if (65 <=? code c) && (code c <=? 90)
  then ascii_of_N (Z.to_N (code c + 32)) else c.

Fixpoint lower (s : string) : string :=
  match s with
  | EmptyString => EmptyString
  | String c r => String (lower_char c) (lower r)
  end.

Fixpoint startswith (p s : string) : bool :=
  match p, s with
  | EmptyString, _ => true
  | String a p', String b s' => Ascii.eqb a b && startswith p' s'
  | String _ _, EmptyString => false
  end.

(** [p in s] for two strings. *)
Fixpoint str_contains (p s : string) : bool :=
  startswith p s ||
  match s with
  | EmptyString => false
  | String _ s' => str_contains p s'
  end.

(** **** Integers as text *)

(** The decimal digits of a non-negative integer, most significant first,
    pushed in front of [acc]. *)
Fixpoint digits_acc (fuel : nat) (n : Z) (acc : string) : string :=
  match fuel with
  | O => acc
  | S fuel' =>
      let acc' := String (digit_char (n mod 10)) acc in
      if n / 10 =? 0 then acc' else digits_acc fuel' (n / 10) acc'
  end.

(** A number has no more decimal digits than binary ones. *)
Definition str_nonneg (n : Z) : string :=
  digits_acc (S (Z.to_nat (Z.log2 n))) n EmptyString.

(** [str(z)] and [f"{z}"] for an int. *)
Definition str_int (z : Z) : string :=
  if z <? 0 then String "-" (str_nonneg (- z)) else str_nonneg z.

(** The digits of an int literal: decimal digits, single underscores
    allowed between two digits. [seen] tells that the previous character
    was a digit. *)
Fixpoint int_digits (s : string) (acc : Z) (seen : bool) : option Z :=
  match s with
  | EmptyString => if seen then Some acc else None
  | String c r =>
      if is_digit c then int_digits r (10 * acc + digit_val c) true
      else if Ascii.eqb c "_" && seen then int_digits r acc false
      else None
  end.

Definition int_signed (s : string) : option Z :=
  match s with
  | String "-" r => Z.opp <$> int_digits r 0 false
  | String "+" r => int_digits r 0 false
  | _ => int_digits s 0 false
  end.

(** [int(s)] for a string: [None] stands for [ValueError]. The optional
    limit of the interpreter on the number of digits is not part of the
    model, here and in [str_int]. *)
Definition int_of_str (s : string) : option Z :=
  int_signed (strip_with is_c_space s).

(** **** Floats *)

(** [int(f)]: truncation toward zero. *)
Definition int_of_float (f : spec_float) : result Z :=
  match f with
  | S754_nan => Raise ValueError
  | S754_infinity _ => Raise OverflowError
  | S754_zero _ => Ok 0
  | S754_finite s m e =>
      let a := if 0 <=? e then Z.pos m * 2 ^ e else Z.pos m / 2 ^ (- e) in
      Ok (if s then - a else a)
  end.

(** [f >= 0] *)
Definition float_ge0 (f : spec_float) : bool :=
  match f with
  | S754_nan => false
  | S754_zero _ => true
  | S754_infinity s => negb s
  | S754_finite s _ _ => negb s
  end.

(** The exact value [m * 2^e] times [100], rounded to the nearest integer,
    ties to even: the digits that the presentation type [.2f] prints. *)
Definition hundredths (m : positive) (e : Z) : Z :=
  if 0 <=? e then Z.pos m * 2 ^ e * 100
  else
    let d := 2 ^ (- e) in
    let q := (Z.pos m * 100) / d in
    let r := (Z.pos m * 100) mod d in
    if 2 * r <? d then q
    else if d <? 2 * r then q + 1
    else if Z.even q then q else q + 1.

Definition two_digits (n : Z) : string :=
  String (digit_char (n / 10)) (String (digit_char (n mod 10)) EmptyString).

Definition fixed2 (h : Z) : string :=
  str_nonneg (h / 100) ++ "." ++ two_digits (h mod 100).

(** [format(f, "+.2f")] when [plus], [format(f, ".2f")] otherwise. *)
Definition format_2f (plus : bool) (f : spec_float) : string :=
  let sign (s : bool) := if s then "-" else if plus then "+" else "" in
  match f with
  | S754_nan => sign false ++ "nan"
  | S754_infinity s => sign s ++ "inf"
  | S754_zero s => sign s ++ "0.00"
  | S754_finite s m e => sign s ++ fixed2 (hundredths m e)
  end.

(** Binary64. *)
Definition prec : Z := 53.
Definition emax : Z := 1024.

(** [float(z)] for an int that the format holds exactly or rounds to. *)
Definition float_of_int (z : Z) : spec_float :=
  binary_normalize prec emax z 0 false.

(** [a / b] on two ints: the correctly rounded quotient. *)
Definition int_truediv (a b : Z) : result spec_float :=
  let fl (z : Z) :=
    match z with
    | Z0 => S754_zero false
    | Zpos p => S754_finite false p 0
    | Zneg p => S754_finite true p 0
    end in
  if b =? 0 then Raise (ToolError "ZeroDivisionError")
  else match SFdiv prec emax (fl a) (fl b) with
       | S754_infinity _ => Raise OverflowError
       | q => Ok q
       end.

(** [f * z] for a float and an int. *)
Definition float_mul_int (f : spec_float) (z : Z) : spec_float :=
  SFmul prec emax f (float_of_int z).

(** **** Conversions and containers *)

Section Str.
(** [str] of a float and of a container goes through [repr], which is
    left open: every result below holds whatever text it produces. *)
Variable repr_other : pyval -> string.

(** [str(v)] *)
Definition str (v : pyval) : string :=
  match v with
  | VNone => "None"
  | VBool b => if b then "True" else "False"
  | VInt z => str_int z
  | VStr s => s
  | VFloat _ | VList _ | VDict _ => repr_other v
  end.
End Str.

(** [int(v)] *)
Definition int_of (v : pyval) : result Z :=
  match v with
  | VInt z => Ok z
  | VBool b => Ok (if b then 1 else 0)
  | VFloat f => int_of_float f
  | VStr s => match int_of_str s with Some z => Ok z | None => Raise ValueError end
  | VNone | VList _ | VDict _ => Raise TypeError
  end.

Definition is_VStr (k : string) (v : pyval) : bool :=
  match v with VStr s => String.eqb s k | _ => false end.

(** [k in v] for a string [k]. *)
Definition contains (v : pyval) (k : string) : result bool :=
  match v with
  | VDict d => Ok (bool_decide (is_Some (d !! k)))
  | VList l => Ok (existsb (is_VStr k) l)
  | VStr s => Ok (str_contains k s)
  | VNone | VBool _ | VInt _ | VFloat _ => Raise TypeError
  end.

(** [v[k]] for a string [k]. *)
Definition getitem (v : pyval) (k : string) : result pyval :=
  match v with
  | VDict d => match d !! k with Some x => Ok x | None => Raise KeyError end
  | _ => Raise TypeError
  end.

(** [l[i]] on a list, negative indices counted from the end. *)
Definition list_get {A} (l : list A) (i : Z) : result A :=
  let n := Z.of_nat (length l) in
  let j := if i <? 0 then i + n else i in
  if (0 <=? j) && (j <? n)
  then match l !! Z.to_nat j with Some a => Ok a | None => Raise IndexError end
  else Raise IndexError.

(** [l[i] = a] *)
Definition list_set {A} (l : list A) (i : Z) (a : A) : result (list A) :=
  let n := Z.of_nat (length l) in
  let j := if i <? 0 then i + n else i in
  if (0 <=? j) && (j <? n) then Ok (<[Z.to_nat j := a]> l) else Raise IndexError.

End Py.

(** *** models.py *)
Module Models.
Import Py.

(** [ToneCurve]: the (input, output) pairs, in order. *)
Record ToneCurve : Type := mkToneCurve { points : list (Z * Z) }.

(** [ToneCurve.__str__] *)
Definition ToneCurve_str (self : ToneCurve) : string :=
  match points self with
  | [] => ""
  | _ => join ", " (map (fun '(x, y) => str_int x ++ ", " ++ str_int y) (points self))
  end.

(** [bool(c)] for an optional curve: the class defines neither [__bool__]
    nor [__len__], so every instance is true, whatever its points. *)
Definition curve_truthy (c : option ToneCurve) : bool :=
  match c with
  | None => false
  | Some _ => true
  end.

(** [LightroomAdjustments]. The annotations of the fields are not
    enforced, so a scalar field holds any value; [dyn_attrs] holds the
    attributes that [setattr] adds beside the declared fields. *)
Record LightroomAdjustments : Type := mkAdjustments {
  exposure : pyval;
  contrast : pyval;
  highlights : pyval;
  shadows : pyval;
  whites : pyval;
  blacks : pyval;
  temperature : pyval;
  tint : pyval;
  vibrance : pyval;
  saturation : pyval;
  clarity : pyval;
  dehaze : pyval;
  texture : pyval;
  tone_curve : option ToneCurve;
  sharpness : pyval;
  luminance_noise_reduction : pyval;
  color_noise_reduction : pyval;
  vignette_amount : pyval;
  grain_amount : pyval;
  hue_adjustments : gmap string pyval;
  saturation_adjustments : gmap string pyval;
  luminance_adjustments : gmap string pyval;
  source_file : option string;
  dyn_attrs : gmap string pyval
}.

(** [LightroomAdjustments(source_file=sf)]; [sf = None] is the instance
    built with no argument. *)
Definition new_adjustments (sf : option string) : LightroomAdjustments :=
  mkAdjustments VNone VNone VNone VNone VNone VNone VNone VNone VNone VNone
    VNone VNone VNone None VNone VNone VNone VNone VNone ∅ ∅ ∅ sf ∅.

(** [setattr(a, name, v)] for the scalar fields; any other name becomes a
    dynamic attribute. *)
Definition setattr (a : LightroomAdjustments) (name : string) (v : pyval)
  : LightroomAdjustments :=
  let 'mkAdjustments ex co hi sh wh bl te ti vi sa cl de tx tc sp ln cn vg gr hu su lu sf dy := a in
  if String.eqb name "exposure" then mkAdjustments v co hi sh wh bl te ti vi sa cl de tx tc sp ln cn vg gr hu su lu sf dy
  else if String.eqb name "contrast" then mkAdjustments ex v hi sh wh bl te ti vi sa cl de tx tc sp ln cn vg gr hu su lu sf dy
  else if String.eqb name "highlights" then mkAdjustments ex co v sh wh bl te ti vi sa cl de tx tc sp ln cn vg gr hu su lu sf dy
  else if String.eqb name "shadows" then mkAdjustments ex co hi v wh bl te ti vi sa cl de tx tc sp ln cn vg gr hu su lu sf dy
  else if String.eqb name "whites" then mkAdjustments ex co hi sh v bl te ti vi sa cl de tx tc sp ln cn vg gr hu su lu sf dy
  else if String.eqb name "blacks" then mkAdjustments ex co hi sh wh v te ti vi sa cl de tx tc sp ln cn vg gr hu su lu sf dy
  else if String.eqb name "temperature" then mkAdjustments ex co hi sh wh bl v ti vi sa cl de tx tc sp ln cn vg gr hu su lu sf dy
  else if String.eqb name "tint" then mkAdjustments ex co hi sh wh bl te v vi sa cl de tx tc sp ln cn vg gr hu su lu sf dy
  else if String.eqb name "vibrance" then mkAdjustments ex co hi sh wh bl te ti v sa cl de tx tc sp ln cn vg gr hu su lu sf dy
  else if String.eqb name "saturation" then mkAdjustments ex co hi sh wh bl te ti vi v cl de tx tc sp ln cn vg gr hu su lu sf dy
  else if String.eqb name "clarity" then mkAdjustments ex co hi sh wh bl te ti vi sa v de tx tc sp ln cn vg gr hu su lu sf dy
  else if String.eqb name "dehaze" then mkAdjustments ex co hi sh wh bl te ti vi sa cl v tx tc sp ln cn vg gr hu su lu sf dy
  else if String.eqb name "texture" then mkAdjustments ex co hi sh wh bl te ti vi sa cl de v tc sp ln cn vg gr hu su lu sf dy
  else if String.eqb name "sharpness" then mkAdjustments ex co hi sh wh bl te ti vi sa cl de tx tc v ln cn vg gr hu su lu sf dy
  else if String.eqb name "luminance_noise_reduction" then mkAdjustments ex co hi sh wh bl te ti vi sa cl de tx tc sp v cn vg gr hu su lu sf dy
  else if String.eqb name "color_noise_reduction" then mkAdjustments ex co hi sh wh bl te ti vi sa cl de tx tc sp ln v vg gr hu su lu sf dy
  else if String.eqb name "vignette_amount" then mkAdjustments ex co hi sh wh bl te ti vi sa cl de tx tc sp ln cn v gr hu su lu sf dy
  else if String.eqb name "grain_amount" then mkAdjustments ex co hi sh wh bl te ti vi sa cl de tx tc sp ln cn vg v hu su lu sf dy
  else mkAdjustments ex co hi sh wh bl te ti vi sa cl de tx tc sp ln cn vg gr hu su lu sf (<[name := v]> dy).

(** [getattr(a, name)] on the same names; [None] when the attribute is
    neither a scalar field nor a dynamic attribute that was set. *)
Definition getattr (a : LightroomAdjustments) (name : string) : option pyval :=
  if String.eqb name "exposure" then Some (exposure a)
  else if String.eqb name "contrast" then Some (contrast a)
  else if String.eqb name "highlights" then Some (highlights a)
  else if String.eqb name "shadows" then Some (shadows a)
  else if String.eqb name "whites" then Some (whites a)
  else if String.eqb name "blacks" then Some (blacks a)
  else if String.eqb name "temperature" then Some (temperature a)
  else if String.eqb name "tint" then Some (tint a)
  else if String.eqb name "vibrance" then Some (vibrance a)
  else if String.eqb name "saturation" then Some (saturation a)
  else if String.eqb name "clarity" then Some (clarity a)
  else if String.eqb name "dehaze" then Some (dehaze a)
  else if String.eqb name "texture" then Some (texture a)
  else if String.eqb name "sharpness" then Some (sharpness a)
  else if String.eqb name "luminance_noise_reduction" then Some (luminance_noise_reduction a)
  else if String.eqb name "color_noise_reduction" then Some (color_noise_reduction a)
  else if String.eqb name "vignette_amount" then Some (vignette_amount a)
  else if String.eqb name "grain_amount" then Some (grain_amount a)
  else dyn_attrs a !! name.

Definition set_tone_curve (a : LightroomAdjustments) (c : option ToneCurve)
  : LightroomAdjustments :=
  let 'mkAdjustments ex co hi sh wh bl te ti vi sa cl de tx _ sp ln cn vg gr hu su lu sf dy := a in
  mkAdjustments ex co hi sh wh bl te ti vi sa cl de tx c sp ln cn vg gr hu su lu sf dy.

Definition set_hue (a : LightroomAdjustments) (k : string) (v : pyval)
  : LightroomAdjustments :=
  let 'mkAdjustments ex co hi sh wh bl te ti vi sa cl de tx tc sp ln cn vg gr hu su lu sf dy := a in
  mkAdjustments ex co hi sh wh bl te ti vi sa cl de tx tc sp ln cn vg gr (<[k := v]> hu) su lu sf dy.

Definition set_sat (a : LightroomAdjustments) (k : string) (v : pyval)
  : LightroomAdjustments :=
  let 'mkAdjustments ex co hi sh wh bl te ti vi sa cl de tx tc sp ln cn vg gr hu su lu sf dy := a in
  mkAdjustments ex co hi sh wh bl te ti vi sa cl de tx tc sp ln cn vg gr hu (<[k := v]> su) lu sf dy.

Definition set_lum (a : LightroomAdjustments) (k : string) (v : pyval)
  : LightroomAdjustments :=
  let 'mkAdjustments ex co hi sh wh bl te ti vi sa cl de tx tc sp ln cn vg gr hu su lu sf dy := a in
  mkAdjustments ex co hi sh wh bl te ti vi sa cl de tx tc sp ln cn vg gr hu su (<[k := v]> lu) sf dy.

(** The list that [has_adjustments] inspects. *)
Definition basic_adjustments (self : LightroomAdjustments) : list pyval :=
  [ exposure self; contrast self; highlights self; shadows self;
    whites self; blacks self; temperature self; tint self;
    vibrance self; saturation self; clarity self; dehaze self;
    texture self; sharpness self ].

(** [LightroomAdjustments.has_adjustments] *)
Definition has_adjustments (self : LightroomAdjustments) : bool :=
  existsb (fun adj => negb (is_none adj)) (basic_adjustments self)
  || curve_truthy (tone_curve self).

Record PresetMetadata : Type := mkPresetMetadata {
  name : string;
  description : option string;
  uuid : option string
}.

End Models.

(** *** metadata.py *)
Module Metadata.
Import Py Models.

(** [MetadataExtractor.LR_TAGS], in the order of the dictionary. *)
Definition LR_TAGS : list (string * string) :=
  [ ("XMP:Exposure2012", "exposure");
    ("XMP:Contrast2012", "contrast");
    ("XMP:Highlights2012", "highlights");
    ("XMP:Shadows2012", "shadows");
    ("XMP:Whites2012", "whites");
    ("XMP:Blacks2012", "blacks");
    ("XMP:Temperature", "temperature");
    ("XMP:Tint", "tint");
    ("XMP:Vibrance", "vibrance");
    ("XMP:Saturation", "saturation");
    ("XMP:Clarity2012", "clarity");
    ("XMP:Dehaze", "dehaze");
    ("XMP:Texture", "texture");
    ("XMP:Sharpness", "sharpness");
    ("XMP:LuminanceSmoothing", "luminance_noise_reduction");
    ("XMP:ColorNoiseReduction", "color_noise_reduction");
    ("XMP:PostCropVignetteAmount", "vignette_amount");
    ("XMP:GrainAmount", "grain_amount");
    ("XMP:ToneCurvePV2012", "tone_curve");
    ("XMP:ToneCurvePV2012Red", "tone_curve_red");
    ("XMP:ToneCurvePV2012Green", "tone_curve_green");
    ("XMP:ToneCurvePV2012Blue", "tone_curve_blue") ].

(** The loop [for i in range(0, len(values), 2)] that appends
    [(values[i], values[i + 1])] while [i + 1 < len(values)]. *)
Fixpoint pair_up (values : list Z) : list (Z * Z) :=
  match values with
  | a :: b :: rest => (a, b) :: pair_up rest
  | _ => []
  end.

Definition curve_of_values (values : list Z) : option ToneCurve :=
  match pair_up values with
  | [] => None
  | pts => Some (mkToneCurve pts)
  end.

(** [int(v.strip())] on one token of the string form. *)
Definition int_of_token (v : string) : result Z :=
  match int_of_str (strip v) with
  | Some z => Ok z
  | None => Raise ValueError
  end.

(** [MetadataExtractor._parse_tone_curve]: the handler turns [ValueError]
    and [TypeError] into [None]; any other exception leaves the
    function. *)
Definition _parse_tone_curve (curve_data : pyval) : result (option ToneCurve) :=
  if negb (truthy curve_data) then Ok None
  else
    let body :=
      match curve_data with
      | VStr s =>
          rbind (rmap_list int_of_token (split "," s))
                (fun values => Ok (curve_of_values values))
      | VList l =>
          rbind (rmap_list int_of l)
                (fun values => Ok (curve_of_values values))
      | _ => Ok None
      end in
    match body with
    | Raise ValueError | Raise TypeError => Ok None
    | r => r
    end.

(** Statements that update the adjustments object and may raise: the
    object keeps the updates made before the exception. *)
Definition M (A : Type) : Type :=
  LightroomAdjustments -> result A * LightroomAdjustments.

Definition ret {A} (a : A) : M A := fun s => (Ok a, s).

Definition bind {A B} (m : M A) (k : A -> M B) : M B :=
  fun s => match m s with
           | (Ok a, s') => k a s'
           | (Raise e, s') => (Raise e, s')
           end.

Definition lift {A} (r : result A) : M A := fun s => (r, s).

Definition update (f : LightroomAdjustments -> LightroomAdjustments) : M unit :=
  fun s => (Ok tt, f s).

Notation "'let*' x ':=' m 'in' k" := (bind m (fun x => k))
  (at level 10, x pattern, m at level 200, k at level 200).

Fixpoint for_each {X} (l : list X) (body : X -> M unit) : M unit :=
  match l with
  | [] => ret tt
  | x :: rest => let* _ := body x in for_each rest body
  end.

Definition when (b : bool) (m : M unit) : M unit := if b then m else ret tt.

Definition colors : list string :=
  ["Red"; "Orange"; "Yellow"; "Green"; "Aqua"; "Blue"; "Purple"; "Magenta"].

(** [MetadataExtractor._extract_hsl_adjustments] *)
Definition _extract_hsl_adjustments (data : pyval) : M unit :=
  for_each colors (fun color =>
    let hue_tag := "XMP:HueAdjustment" ++ color in
    let* has_hue := lift (contains data hue_tag) in
    let* _ := when has_hue
                (let* v := lift (getitem data hue_tag) in
                 update (fun a => set_hue a (lower color) v)) in
    let sat_tag := "XMP:SaturationAdjustment" ++ color in
    let* has_sat := lift (contains data sat_tag) in
    let* _ := when has_sat
                (let* v := lift (getitem data sat_tag) in
                 update (fun a => set_sat a (lower color) v)) in
    let lum_tag := "XMP:LuminanceAdjustment" ++ color in
    let* has_lum := lift (contains data lum_tag) in
    when has_lum
      (let* v := lift (getitem data lum_tag) in
       update (fun a => set_lum a (lower color) v))).

(** The loop over [LR_TAGS.items()]. *)
Definition import_tags (data : pyval) : M unit :=
  for_each LR_TAGS (fun '(xmp_tag, attr_name) =>
    let* present := lift (contains data xmp_tag) in
    when present
      (let* value := lift (getitem data xmp_tag) in
       if String.eqb attr_name "tone_curve"
       then (let* c := lift (_parse_tone_curve value) in
             update (fun a => set_tone_curve a c))
       else update (fun a => setattr a attr_name value))).

(** What [extract] hands back: the value returned or the exception that
    leaves the call, and the exception that the handler caught and
    printed, if any. *)
Record extraction : Type := mkExtraction {
  returned : result LightroomAdjustments;
  printed : option exn
}.

(** [MetadataExtractor.extract]. [get_metadata] stands for opening the
    external tool and asking it for the metadata of the file; [image_path]
    is the text of the path. *)
Definition extract (get_metadata : string -> result pyval) (image_path : string)
  : extraction :=
  let adjustments := new_adjustments (Some image_path) in
  match get_metadata image_path with
  | Raise e => mkExtraction (Ok adjustments) (Some e)
  | Ok metadata =>
      if negb (truthy metadata) then mkExtraction (Ok adjustments) None
      else
        let data :=
          match metadata with
          | VList (first :: _) => first
          | _ => metadata
          end in
        match (let* _ := import_tags data in _extract_hsl_adjustments data)
                adjustments with
        | (Ok _, adjustments') => mkExtraction (Ok adjustments') None
        | (Raise e, adjustments') => mkExtraction (Ok adjustments') (Some e)
        end
  end.

End Metadata.

(** *** xmp.py *)
Module Xmp.
Import Py Models.

(** [XMPGenerator.NAMESPACES] *)
Definition NS_x : string := "adobe:ns:meta/".
Definition NS_rdf : string := "http://www.w3.org/1999/02/22-rdf-syntax-ns#".
Definition NS_crs : string := "http://ns.adobe.com/camera-raw-settings/1.0/".

(** [f"{{{ns}}}local"] *)
Definition qname (ns local : string) : string := "{" ++ ns ++ "}" ++ local.

(** An [ElementTree] element: tag, attributes, text and children. *)
Inductive Element : Type :=
  | mkElement (tag : string) (attrib : gmap string string)
              (text : option string) (children : list Element).

Definition el_tag (e : Element) : string :=
  match e with mkElement t _ _ _ => t end.
Definition el_attrib (e : Element) : gmap string string :=
  match e with mkElement _ a _ _ => a end.
Definition el_text (e : Element) : option string :=
  match e with mkElement _ _ t _ => t end.
Definition el_children (e : Element) : list Element :=
  match e with mkElement _ _ _ c => c end.

(** [ET.SubElement(parent, ...)] seen from the parent: the new element is
    appended to its children. *)
Definition SubElement (parent child : Element) : Element :=
  match parent with
  | mkElement t a x c => mkElement t a x (c ++ [child])%list
  end.

Definition colors : list string :=
  ["Red"; "Orange"; "Yellow"; "Green"; "Aqua"; "Blue"; "Purple"; "Magenta"].

Section Generator.
Variable repr_other : pyval -> string.

(** The dictionary [mappings] of [_add_adjustments_to_attribs]:
    model attribute, then tag and value. *)
Definition mappings (adjustments : LightroomAdjustments)
  : list (string * (string * pyval)) :=
  [ ("exposure", (qname NS_crs "Exposure2012", exposure adjustments));
    ("contrast", (qname NS_crs "Contrast2012", contrast adjustments));
    ("highlights", (qname NS_crs "Highlights2012", highlights adjustments));
    ("shadows", (qname NS_crs "Shadows2012", shadows adjustments));
    ("whites", (qname NS_crs "Whites2012", whites adjustments));
    ("blacks", (qname NS_crs "Blacks2012", blacks adjustments));
    ("temperature", (qname NS_crs "Temperature", temperature adjustments));
    ("tint", (qname NS_crs "Tint", tint adjustments));
    ("vibrance", (qname NS_crs "Vibrance", vibrance adjustments));
    ("saturation", (qname NS_crs "Saturation", saturation adjustments));
    ("clarity", (qname NS_crs "Clarity2012", clarity adjustments));
    ("dehaze", (qname NS_crs "Dehaze", dehaze adjustments));
    ("texture", (qname NS_crs "Texture", texture adjustments));
    ("sharpness", (qname NS_crs "Sharpness", sharpness adjustments));
    ("luminance_noise_reduction",
      (qname NS_crs "LuminanceSmoothing", luminance_noise_reduction adjustments));
    ("color_noise_reduction",
      (qname NS_crs "ColorNoiseReduction", color_noise_reduction adjustments));
    ("vignette_amount",
      (qname NS_crs "PostCropVignetteAmount", vignette_amount adjustments));
    ("grain_amount", (qname NS_crs "GrainAmount", grain_amount adjustments)) ].

(** The text written for one value that is not [None]. *)
Definition format_value (value : pyval) : string :=
  match value with
  | VFloat f => if float_ge0 f then format_2f true f else format_2f false f
  | _ => str repr_other value
  end.

Definition add_band (kind color : string) (band : gmap string pyval)
    (attribs : gmap string string) : gmap string string :=
  match band !! lower color with
  | Some v => <[qname NS_crs (kind ++ color) := str repr_other v]> attribs
  | None => attribs
  end.

(** [XMPGenerator._add_hsl_adjustments] *)
Definition _add_hsl_adjustments (attribs : gmap string string)
    (adjustments : LightroomAdjustments) : gmap string string :=
  fold_left
    (fun attribs color =>
       let attribs := add_band "HueAdjustment" color (hue_adjustments adjustments) attribs in
       let attribs := add_band "SaturationAdjustment" color (saturation_adjustments adjustments) attribs in
       add_band "LuminanceAdjustment" color (luminance_adjustments adjustments) attribs)
    colors attribs.

(** [XMPGenerator._add_adjustments_to_attribs]: the dictionary
    [attribs] after the call. *)
Definition _add_adjustments_to_attribs (adjustments : LightroomAdjustments)
    (attribs : gmap string string) : gmap string string :=
  let attribs :=
    fold_left
      (fun attribs '(key, (xmp_tag, value)) =>
         if negb (is_none value)
         then <[xmp_tag := format_value value]> attribs
         else attribs)
      (mappings adjustments) attribs in
  _add_hsl_adjustments attribs adjustments.

(** [XMPGenerator._add_tone_curve_element]: the parent after the call. *)
Definition _add_tone_curve_element (parent : Element) (curve : ToneCurve)
  : Element :=
  let items :=
    map (fun '(x, y) =>
           mkElement (qname NS_rdf "li") ∅
                     (Some (str_int x ++ ", " ++ str_int y)) [])
        (points curve) in
  let seq := mkElement (qname NS_rdf "Seq") ∅ None items in
  let curve_elem := mkElement (qname NS_crs "ToneCurvePV2012") ∅ None [seq] in
  SubElement parent curve_elem.

(** The [Description] element that [_build_xmp_structure] creates. *)
Definition description_element (adjustments : LightroomAdjustments) : Element :=
  let desc_attribs : gmap string string :=
    <[qname NS_crs "ProcessVersion" := "11.0"]>
      (<[qname NS_crs "Version" := "16.5"]>
         (<[qname NS_rdf "about" := ""]> ∅)) in
  let desc_attribs := _add_adjustments_to_attribs adjustments desc_attribs in
  let desc := mkElement (qname NS_rdf "Description") desc_attribs None [] in
  match tone_curve adjustments with
  | Some c =>
      match points c with
      | [] => desc
      | _ => _add_tone_curve_element desc c
      end
  | None => desc
  end.

(** [XMPGenerator._build_xmp_structure] *)
Definition _build_xmp_structure (adjustments : LightroomAdjustments)
    (metadata : PresetMetadata) : Element :=
  let root :=
    mkElement (qname NS_x "xmpmeta")
              (<[qname NS_x "xmptk" := "Adobe XMP Core 7.0-c000 1.000000"]> ∅)
              None [] in
  let rdf := mkElement (qname NS_rdf "RDF") ∅ None [] in
  SubElement root (SubElement rdf (description_element adjustments)).

End Generator.

End Xmp.

(** *** widgets.py: the tone-curve widget *)
Module Widgets.
Import Py Models.

(** A computation that returns, raises, or runs out of the steps it was
    given ([None]). *)
Definition partial (A : Type) : Type := option (result A).

Abbreviation Grid := (list (list string)).

Definition BLANK : string := " ".
Definition VBAR : string := "│".
Definition HBAR : string := "─".
Definition CORNER : string := "└".
Definition DOT : string := "●".

(** [grid[y][x]] *)
Definition grid_get (grid : Grid) (y x : Z) : result string :=
  rbind (list_get grid y) (fun row => list_get row x).

(** [grid[y][x] = v]: the rows are distinct lists, so only row [y]
    changes. *)
Definition grid_set (grid : Grid) (y x : Z) (v : string) : result Grid :=
  rbind (list_get grid y) (fun row =>
  rbind (list_set row x v) (fun row' =>
  list_set grid y row')).

(** The body of the loop of [_draw_line] up to the exit test. *)
Definition plot (grid : Grid) (x1 y1 height width : Z) : result Grid :=
  if (0 <=? y1) && (y1 <? height) && ((0 <=? x1) && (x1 <? width))
  then rbind (grid_get grid y1 x1) (fun cell =>
         if String.eqb cell BLANK || String.eqb cell HBAR
         then grid_set grid y1 x1 DOT
         else Ok grid)
  else Ok grid.

(** The loop [while True] of [_draw_line], given [fuel] iterations. *)
Fixpoint draw_loop (fuel : nat) (grid : Grid)
    (x1 y1 x2 y2 dx dy sx sy err height width : Z) : partial Grid :=
  match fuel with
  | O => None
  | S fuel' =>
      match plot grid x1 y1 height width with
      | Raise e => Some (Raise e)
      | Ok grid =>
          if (x1 =? x2) && (y1 =? y2) then Some (Ok grid)
          else
            let e2 := 2 * err in
            let '(err, x1) :=
              if - dy <? e2 then (err - dy, x1 + sx) else (err, x1) in
            let '(err, y1) :=
              if e2 <? dx then (err + dx, y1 + sy) else (err, y1) in
            draw_loop fuel' grid x1 y1 x2 y2 dx dy sx sy err height width
      end
  end.

(** [ToneCurveWidget._draw_line], given [fuel] iterations of its loop. *)
Definition _draw_line_fuel (fuel : nat) (grid : Grid) (x1 y1 x2 y2 : Z)
  : partial Grid :=
  let dx := Z.abs (x2 - x1) in
  let dy := Z.abs (y2 - y1) in
  let sx := if x1 <? x2 then 1 else -1 in
  let sy := if y1 <? y2 then 1 else -1 in
  let err := dx - dy in
  let height := Z.of_nat (length grid) in
  match list_get grid 0 with
  | Raise e => Some (Raise e)
  | Ok row0 =>
      let width := Z.of_nat (length row0) in
      draw_loop fuel grid x1 y1 x2 y2 dx dy sx sy err height width
  end.

(** Iterations that are always enough. *)
Definition line_fuel (x1 y1 x2 y2 : Z) : nat :=
  S (Z.to_nat (Z.abs (x2 - x1) + Z.abs (y2 - y1))).

Definition _draw_line (grid : Grid) (x1 y1 x2 y2 : Z) : partial Grid :=
  _draw_line_fuel (line_fuel x1 y1 x2 y2) grid x1 y1 x2 y2.

Definition width : Z := 60.
Definition height : Z := 20.

(** [int((v / 255) * n)] *)
Definition scale (v n : Z) : result Z :=
  rbind (int_truediv v 255) (fun q => int_of_float (float_mul_int q n)).

(** Grid coordinates of a curve point. *)
Definition grid_x (x : Z) : result Z :=
  rbind (scale x (width - 2)) (fun k => Ok (k + 1)).
Definition grid_y (y : Z) : result Z :=
  rbind (scale y (height - 2)) (fun k => Ok (height - 2 - k)).

Fixpoint rfold {A X} (f : A -> X -> result A) (l : list X) (a : A) : result A :=
  match l with
  | [] => Ok a
  | x :: rest => rbind (f a x) (rfold f rest)
  end.

(** [range(n)] *)
Definition range (n : Z) : list Z := map Z.of_nat (seq 0 (Z.to_nat n)).

(** The blank grid with its axes drawn. *)
Definition axes_grid : result Grid :=
  let grid : Grid :=
    map (fun _ => map (fun _ => BLANK) (range width)) (range height) in
  rbind (rfold (fun g y => grid_set g y 0 VBAR) (range height) grid) (fun grid =>
  rbind (rfold (fun g x => grid_set g (height - 1) x HBAR) (range width) grid) (fun grid =>
  grid_set grid (height - 1) 0 CORNER)).

(** The loop [for i in range(len(points) - 1)] over consecutive points. *)
Fixpoint plot_points (points : list (Z * Z)) (grid : Grid) : partial Grid :=
  match points with
  | (x1, y1) :: (((x2, y2) :: _) as rest) =>
      match rbind (grid_x x1) (fun gx1 =>
            rbind (grid_y y1) (fun gy1 =>
            rbind (grid_x x2) (fun gx2 =>
            rbind (grid_y y2) (fun gy2 => Ok (gx1, gy1, gx2, gy2))))) with
      | Raise e => Some (Raise e)
      | Ok (gx1, gy1, gx2, gy2) =>
          match _draw_line grid gx1 gy1 gx2 gy2 with
          | Some (Ok grid') => plot_points rest grid'
          | other => other
          end
      end
  | _ => Some (Ok grid)
  end.

Definition NL : string := String (ascii_of_nat 10) EmptyString.

Definition PLACEHOLDER : string := "[dim]No tone curve adjustments[/dim]".

Fixpoint spaces (n : nat) : string :=
  match n with
  | O => EmptyString
  | S k => String " " (spaces k)
  end.

(** The text returned for a finished grid. *)
Definition frame (grid : Grid) : string :=
  let lines := map (fun row => join "" row) grid in
  let curve_str := join NL lines in
  "[bold cyan]Tone Curve[/bold cyan]" ++ NL ++
  "[dim]Output[/dim]" ++ NL ++
  curve_str ++ NL ++
  spaces (Z.to_nat (width - 10)) ++ "[dim]Input[/dim]".

(** The grid that [render] fills for a curve with points. *)
Definition render_grid (points : list (Z * Z)) : partial Grid :=
  match axes_grid with
  | Raise e => Some (Raise e)
  | Ok grid => plot_points points grid
  end.

(** [ToneCurveWidget.render] *)
Definition render (tone_curve : option ToneCurve) : partial string :=
  match tone_curve with
  | None => Some (Ok PLACEHOLDER)
  | Some c =>
      match points c with
      | [] => Some (Ok PLACEHOLDER)
      | pts =>
          match render_grid pts with
          | Some (Ok grid) => Some (Ok (frame grid))
          | Some (Raise e) => Some (Raise e)
          | None => None
          end
      end
  end.

End Widgets.

(** ** Part II. The vocabulary of the properties *)

(** *** Text and numbers *)
Module TextDefs.
Import Py.

(** Every character of [s] satisfies [p]. *)
Fixpoint all_chars (p : ascii -> bool) (s : string) : bool :=
  match s with
  | EmptyString => true
  | String c r => p c && all_chars p r
  end.

(** The characters of a printed int. *)
Definition is_num_char (c : ascii) : bool := is_digit c || Ascii.eqb c "-".

(** The value of a string of digits read after the prefix value [a]. *)
Fixpoint dval (s : string) (a : Z) : Z :=
  match s with
  | EmptyString => a
  | String c r => dval r (10 * a + digit_val c)
  end.

Definition no_comma (s : string) : bool :=
  all_chars (fun c => negb (Ascii.eqb c ",")) s.

End TextDefs.

(** *** The tone-curve codec *)
Module CodecDefs.
Import Py Models Metadata.

(** The flat sequence [x1, y1, x2, y2, ...] of a list of points. *)
Fixpoint flatten (pts : list (Z * Z)) : list Z :=
  match pts with
  | [] => []
  | (x, y) :: rest => x :: y :: flatten rest
  end.

(** The numeric sequence of a comma-separated string: its tokens read as
    the decoder reads them. *)
Definition numeric_sequence (s : string) : result (list Z) :=
  rmap_list int_of_token (split "," s).

Definition in_range (p : Z * Z) : Prop :=
  0 <= fst p <= 255 /\ 0 <= snd p <= 255.

End CodecDefs.

(** *** The importer *)
Module ImportDefs.
Import Py Models Metadata.

(** The effect of one entry of [LR_TAGS] on a dictionary [d]. *)
Definition import_step (d : gmap string pyval) (a : LightroomAdjustments)
    (entry : string * string) : LightroomAdjustments :=
  let '(xmp_tag, attr_name) := entry in
  match d !! xmp_tag with
  | None => a
  | Some value =>
      if String.eqb attr_name "tone_curve"
      then match _parse_tone_curve value with
           | Ok c => set_tone_curve a c
           | Raise _ => a
           end
      else setattr a attr_name value
  end.

(** The value under the tone-curve tag, when present, decodes without an
    exception. *)
Definition curve_decodes (d : gmap string pyval) : Prop :=
  forall v, d !! "XMP:ToneCurvePV2012" = Some v ->
            exists c, _parse_tone_curve v = Ok c.

(** The effect of one colour band on a dictionary [d]. *)
Definition band_step (d : gmap string pyval) (a : LightroomAdjustments)
    (color : string) : LightroomAdjustments :=
  let a := match d !! ("XMP:HueAdjustment" ++ color) with
           | Some v => set_hue a (lower color) v
           | None => a
           end in
  let a := match d !! ("XMP:SaturationAdjustment" ++ color) with
           | Some v => set_sat a (lower color) v
           | None => a
           end in
  match d !! ("XMP:LuminanceAdjustment" ++ color) with
  | Some v => set_lum a (lower color) v
  | None => a
  end.

(** The tone curve that the importer stores for a dictionary. *)
Definition imported_curve (d : gmap string pyval) : option ToneCurve :=
  match d !! "XMP:ToneCurvePV2012" with
  | Some v => match _parse_tone_curve v with
              | Ok c => c
              | Raise _ => None
              end
  | None => None
  end.

(** The three mappings of [a], in the order hue, saturation, luminance. *)
Definition band_maps (a : LightroomAdjustments)
  : gmap string pyval * gmap string pyval * gmap string pyval :=
  (hue_adjustments a, saturation_adjustments a, luminance_adjustments a).

Definition put (o : option pyval) (k : string) (m : gmap string pyval)
  : gmap string pyval :=
  match o with
  | Some v => <[k := v]> m
  | None => m
  end.

End ImportDefs.

(** *** The exporter *)
Module ExportDefs.
Import Py Models Metadata Xmp TextDefs.

(** Digits, a point and two digits; [seen] tells that a digit was read. *)
Fixpoint fixed_two (s : string) (seen : bool) : bool :=
  match s with
  | EmptyString => false
  | String c r =>
      if is_digit c then fixed_two r true
      else Ascii.eqb c "." && seen &&
           match r with
           | String d1 (String d2 EmptyString) => is_digit d1 && is_digit d2
           | _ => false
           end
  end.

(** An explicit sign, then digits, a point and two digits. *)
Definition signed_two_decimals (s : string) : bool :=
  match s with
  | String c r => (Ascii.eqb c "+" || Ascii.eqb c "-") && fixed_two r false
  | EmptyString => false
  end.

(** A plain decimal: digits, after a minus sign for a negative number. *)
Definition plain_decimal (s : string) : bool :=
  match s with
  | String "-" r => all_chars is_digit r && negb (String.eqb r "")
  | _ => all_chars is_digit s && negb (String.eqb s "")
  end.

Definition is_finite (f : spec_float) : bool :=
  match f with
  | S754_zero _ | S754_finite _ _ _ => true
  | S754_infinity _ | S754_nan => false
  end.

Definition sign_bit (f : spec_float) : bool :=
  match f with
  | S754_zero s | S754_infinity s | S754_finite s _ _ => s
  | S754_nan => false
  end.

Section Repr.
Variable repr_other : pyval -> string.

(** One turn of the loop over [mappings]. *)
Definition scalar_step (attribs : gmap string string)
    (entry : string * (string * pyval)) : gmap string string :=
  let '(key, (xmp_tag, value)) := entry in
  if negb (is_none value)
  then <[xmp_tag := format_value repr_other value]> attribs
  else attribs.

End Repr.

Definition tag_of (entry : string * (string * pyval)) : string :=
  fst (snd entry).

(** The attribute names that the colour bands can write. *)
Definition band_tags_of (color : string) : list string :=
  [ qname NS_crs ("HueAdjustment" ++ color);
    qname NS_crs ("SaturationAdjustment" ++ color);
    qname NS_crs ("LuminanceAdjustment" ++ color) ].

Definition band_tags : list string := flat_map band_tags_of colors.

(** The attributes of the description element before the adjustments
    are added. *)
Definition base_attribs : gmap string string :=
  <[qname NS_crs "ProcessVersion" := "11.0"]>
    (<[qname NS_crs "Version" := "16.5"]>
       (<[qname NS_rdf "about" := ""]> ∅)).

(** The attribute names of the scalar fields. *)
Definition SCALAR_TAGS : list string :=
  map tag_of (mappings (new_adjustments None)).

End ExportDefs.

(** *** Export, then import *)
Module RoundTripDefs.
Import Py Models Metadata Xmp.

(** [strip_prefix p s] is the rest of [s] after the prefix [p]. *)
Fixpoint strip_prefix (p s : string) : option string :=
  match p, s with
  | EmptyString, _ => Some s
  | String a p', String b s' => if Ascii.eqb a b then strip_prefix p' s' else None
  | String _ _, EmptyString => None
  end.

Definition CRS_PREFIX : string := "{" ++ NS_crs ++ "}".

(** The attributes of the settings namespace, each under the tag name of
    the metadata tool, [XMP:] followed by the local name, with the text
    of the attribute as value. *)
Definition attribute_tags (attribs : gmap string string) : gmap string pyval :=
  map_fold (fun k v acc =>
              match strip_prefix CRS_PREFIX k with
              | Some local => <["XMP:" ++ local := VStr v]> acc
              | None => acc
              end) ∅ attribs.

(** The texts of the items of a sequence element. *)
Definition li_texts (seq : Element) : list pyval :=
  omap (fun li => VStr <$> el_text li) (el_children seq).

(** The primary curve of a description element, as the list of the texts
    of its items. *)
Definition curve_tag (desc : Element) : option pyval :=
  match filter (fun e => el_tag e = qname NS_crs "ToneCurvePV2012")
               (el_children desc) with
  | curve_elem :: _ =>
      match el_children curve_elem with
      | seq :: _ => Some (VList (li_texts seq))
      | [] => None
      end
  | [] => None
  end.

(** The flat tag mapping that corresponds to an exported description
    element. *)
Definition exported_tags (desc : Element) : gmap string pyval :=
  match curve_tag desc with
  | Some v => <["XMP:ToneCurvePV2012" := v]> (attribute_tags (el_attrib desc))
  | None => attribute_tags (el_attrib desc)
  end.

(** Model attribute and local tag name of each scalar field. *)
Definition SCALAR_NAMES : list (string * string) :=
  [ ("exposure", "Exposure2012"); ("contrast", "Contrast2012");
    ("highlights", "Highlights2012"); ("shadows", "Shadows2012");
    ("whites", "Whites2012"); ("blacks", "Blacks2012");
    ("temperature", "Temperature"); ("tint", "Tint");
    ("vibrance", "Vibrance"); ("saturation", "Saturation");
    ("clarity", "Clarity2012"); ("dehaze", "Dehaze");
    ("texture", "Texture"); ("sharpness", "Sharpness");
    ("luminance_noise_reduction", "LuminanceSmoothing");
    ("color_noise_reduction", "ColorNoiseReduction");
    ("vignette_amount", "PostCropVignetteAmount");
    ("grain_amount", "GrainAmount") ].

Definition item_text (p : Z * Z) : pyval :=
  VStr (str_int (fst p) ++ ", " ++ str_int (snd p)).

End RoundTripDefs.

(** *** The tone-curve preview *)
Module PreviewDefs.
Import Py Models Widgets.

(** A grid of [h] rows of [w] cells each. *)
Definition rect (h w : nat) (g : Grid) : Prop :=
  length g = h /\ Forall (fun row => length row = w) g.

(** The cell in row [r], column [c], counted from zero. *)
Definition cell (g : Grid) (r c : nat) : option string :=
  match g !! r with
  | Some row => row !! c
  | None => None
  end.

Definition in_grid (h w : nat) (x y : Z) : Prop :=
  0 <= y < Z.of_nat h /\ 0 <= x < Z.of_nat w.

(** What a drawing step may do to a grid: a cell that changes held a
    blank or a piece of the horizontal axis, now holds the point glyph,
    and its column and row satisfy [P]. *)
Definition marks (P : Z -> Z -> Prop) (g g' : Grid) : Prop :=
  forall r c, cell g' r c <> cell g r c ->
    cell g' r c = Some DOT /\
    (cell g r c = Some BLANK \/ cell g r c = Some HBAR) /\
    P (Z.of_nat c) (Z.of_nat r).

(** The cell (x, y) of [g'] holds the point glyph if it lies in the grid
    and was blank, axis or point in [g]. *)
Definition drawn (h w : nat) (g g' : Grid) (x y : Z) : Prop :=
  in_grid h w x y ->
  cell g (Z.to_nat y) (Z.to_nat x) = Some BLANK \/
  cell g (Z.to_nat y) (Z.to_nat x) = Some HBAR \/
  cell g (Z.to_nat y) (Z.to_nat x) = Some DOT ->
  cell g' (Z.to_nat y) (Z.to_nat x) = Some DOT.

(** A cell of the Bresenham line from (x1, y1) to (x2, y2): [i] steps
    along x and [j] steps along y from the start, toward the end, and
    within half a cell of the ideal segment along the minor axis. *)
Record line_cell (x1 y1 x2 y2 x y i j : Z) : Prop := {
  lc_i : 0 <= i <= Z.abs (x2 - x1);
  lc_j : 0 <= j <= Z.abs (y2 - y1);
  lc_x : x = x1 + (if x1 <? x2 then 1 else -1) * i;
  lc_y : y = y1 + (if y1 <? y2 then 1 else -1) * j;
  lc_close :
    Z.abs (2 * (j * Z.abs (x2 - x1) - i * Z.abs (y2 - y1)))
    <= Z.max (Z.abs (x2 - x1)) (Z.abs (y2 - y1))
}.

(** The state of the loop after [i] steps along x and [j] steps along y. *)
Definition on_line (x1 y1 x2 y2 x y err i j : Z) : Prop :=
  line_cell x1 y1 x2 y2 x y i j /\
  err = (j + 1) * Z.abs (x2 - x1) - (i + 1) * Z.abs (y2 - y1).

(** The cells of the Bresenham line from (x1, y1) to (x2, y2). *)
Definition on_segment (x1 y1 x2 y2 x y : Z) : Prop :=
  exists i j, line_cell x1 y1 x2 y2 x y i j.

(** The float computation of [scale] agrees with integer division
    truncated toward zero. *)
Definition scale_exact (v : Z) : bool :=
  match scale v (width - 2), scale v (height - 2) with
  | Ok a, Ok b =>
      (a =? Z.quot (v * 58) 255) && (b =? Z.quot (v * 18) 255)
  | _, _ => false
  end.

Fixpoint check_from (n : nat) (v : Z) : bool :=
  match n with
  | O => true
  | S n' => scale_exact v && check_from n' (v + 1)
  end.

Definition COORD_BOUND : Z := 4096.

Definition bounded (p : Z * Z) : Prop :=
  - COORD_BOUND <= fst p <= COORD_BOUND /\ - COORD_BOUND <= snd p <= COORD_BOUND.

(** The grid coordinates of a point, in integer arithmetic. *)
Definition to_grid (p : Z * Z) : Z * Z :=
  (Z.quot (fst p * 58) 255 + 1, 18 - Z.quot (snd p * 18) 255).

(** A point whose two coordinates can be scaled: no float overflow. *)
Definition scalable (p : Z * Z) : Prop :=
  (exists gx, grid_x (fst p) = Ok gx) /\ (exists gy, grid_y (snd p) = Ok gy).

(** Consecutive points joined by [_draw_line] at integer coordinates. *)
Fixpoint connect (pts : list (Z * Z)) (g : Grid) : partial Grid :=
  match pts with
  | p :: ((q :: _) as rest) =>
      match _draw_line g (fst (to_grid p)) (snd (to_grid p))
                         (fst (to_grid q)) (snd (to_grid q)) with
      | Some (Ok g') => connect rest g'
      | other => other
      end
  | _ => Some (Ok g)
  end.

Definition anywhere (x y : Z) : Prop := True.

(** Rounding to the nearest integer, ties to even, of the exact quotient
    [a / b]: the reading of [round] in the formula of the
    specification. *)
Definition spec_round_div (a b : Z) : Z :=
  let q := a / b in
  let r := a mod b in
  if 2 * r <? b then q
  else if b <? 2 * r then q + 1
  else if Z.even q then q else q + 1.

(** The formula of the specification for the column of a point:
    [round(x/255 * (width-2)) + 1]. *)
Definition spec_grid_x (x : Z) : Z :=
  spec_round_div (x * (width - 2)) 255 + 1.

(** The points with their coordinates clamped to [0,255]. *)
Definition spec_clamp (pts : list (Z * Z)) : list (Z * Z) :=
  map (fun '(x, y) => (Z.max 0 (Z.min 255 x), Z.max 0 (Z.min 255 y))) pts.

(** The number of iterations of the loop from the first end point: the
    absolute difference along the longer side. *)
Definition steps (x1 y1 x2 y2 : Z) : Z :=
  Z.max (Z.abs (x2 - x1)) (Z.abs (y2 - y1)).

(** The step at which the loop reaches the cell that lies [i] cells along
    x and [j] cells along y from the start: the offset along the longer
    side. *)
Definition major (x1 y1 x2 y2 i j : Z) : Z :=
  if Z.abs (y2 - y1) <=? Z.abs (x2 - x1) then i else j.

(** The whole line is drawn: for every step from the first end point to
    the second there is a cell of the line, at that offset along the
    longer side, that holds the point glyph in [g'] if it lies in the
    grid and was blank, axis or point in [g]. *)
Definition covers (h w : nat) (g g' : Grid) (x1 y1 x2 y2 : Z) : Prop :=
  forall k, 0 <= k <= steps x1 y1 x2 y2 ->
    exists x y i j,
      line_cell x1 y1 x2 y2 x y i j /\
      major x1 y1 x2 y2 i j = k /\
      drawn h w g g' x y.

(** [p] and [q] are two consecutive points of the list. *)
Fixpoint joined (pts : list (Z * Z)) (p q : Z * Z) : Prop :=
  match pts with
  | a :: ((b :: _) as rest) => (p = a /\ q = b) \/ joined rest p q
  | _ => False
  end.

(** The grid coordinates that [render] computes for a point. *)
Definition mapped (p : Z * Z) (gx gy : Z) : Prop :=
  grid_x (fst p) = Ok gx /\ grid_y (snd p) = Ok gy.

(** The cells of the lines between consecutive points, at the grid
    coordinates computed for them, inside the grid or not. *)
Definition on_path (pts : list (Z * Z)) (x y : Z) : Prop :=
  exists p q gx1 gy1 gx2 gy2,
    joined pts p q /\ mapped p gx1 gy1 /\ mapped q gx2 gy2 /\
    on_segment gx1 gy1 gx2 gy2 x y.

End PreviewDefs.

(** *** Sample inputs *)
Module Samples.
Import Py Models Metadata.

(** A stand-in for the text of the values whose [str] is left open. *)
Definition repr_blank : pyval -> string := fun _ => "".

Definition no_points : ToneCurve := mkToneCurve [].

Definition three_points : ToneCurve :=
  mkToneCurve [(0, 0); (64, 80); (255, 255)].

(** A curve that leaves the grid on both axes, one that leaves it along x
    only, and one with a coordinate beyond the range of a float. *)
Definition steep_curve : ToneCurve := mkToneCurve [(0, 0); (510, 510)].
Definition wide_curve : ToneCurve := mkToneCurve [(0, 0); (510, 255)].
Definition huge_curve : ToneCurve := mkToneCurve [(10 ^ 400, 0); (0, 0)].

(** A curve whose second point has an output beyond the range of a
    float. *)
Definition tall_curve : ToneCurve := mkToneCurve [(0, 0); (255, 10 ^ 400)].

(** [LightroomAdjustments(tone_curve=ToneCurve())] *)
Definition only_empty_curve : LightroomAdjustments :=
  set_tone_curve (new_adjustments None) (Some no_points).

(** [LightroomAdjustments(exposure=f)] *)
Definition exposure_only (f : spec_float) : LightroomAdjustments :=
  setattr (new_adjustments None) "exposure" (VFloat f).

(** The float 1.5. *)
Definition one_and_a_half : spec_float := S754_finite false 3 (-1).

(** [LightroomAdjustments(exposure=1.5, contrast=-20)] *)
Definition exposure_contrast : LightroomAdjustments :=
  setattr (exposure_only one_and_a_half) "contrast" (VInt (-20)).

(** [LightroomAdjustments(exposure=1.5, contrast=-20,
    tone_curve=ToneCurve([(0, 0), (64, 80), (255, 255)]))] *)
Definition exposure_contrast_curve : LightroomAdjustments :=
  set_tone_curve exposure_contrast (Some three_points).

(** [LightroomAdjustments(tone_curve=ToneCurve([(0, 0), (64, 80), (255, 255)]))] *)
Definition curve_only : LightroomAdjustments :=
  set_tone_curve (new_adjustments None) (Some three_points).

(** A blank grid of three rows of four cells. *)
Definition small_grid : list (list string) :=
  [ [" "; " "; " "; " "]; [" "; " "; " "; " "]; [" "; " "; " "; " "] ].

(** A tool that fails, and tools that return one dictionary. *)
Definition failing_tool : string -> result pyval :=
  fun _ => Raise (ToolError "exiftool not found").

Definition tool_returning (d : gmap string pyval) : string -> result pyval :=
  fun _ => Ok (VList [VDict d]).

Definition malformed_contrast : gmap string pyval :=
  {[ "XMP:Contrast2012" := VStr "abc" ]}.

Definition mixed_tags : gmap string pyval :=
  <[ "XMP:Contrast2012" := VStr "abc" ]>
    (<[ "XMP:ToneCurvePV2012" := VStr "0, 0, x" ]>
       {[ "XMP:HueAdjustmentRed" := VInt 10 ]}).

Definition infinite_item_tags : gmap string pyval :=
  <[ "XMP:Exposure2012" := VInt 1 ]>
    (<[ "XMP:ToneCurvePV2012" := VList [VFloat (S754_infinity false)] ]>
       {[ "XMP:HueAdjustmentRed" := VInt 10 ]}).

End Samples.

(** ** Part III. Properties *)

(** *** Integers as text *)
Module TextFacts.
Import Py TextDefs.

Lemma digit_char_cases (d : Z) :
  0 <= d <= 9 ->
  is_digit (digit_char d) = true /\ digit_val (digit_char d) = d.
Proof.
  intros H.
  assert (d = 0 \/ d = 1 \/ d = 2 \/ d = 3 \/ d = 4 \/
          d = 5 \/ d = 6 \/ d = 7 \/ d = 8 \/ d = 9) as Hd by lia.
  repeat (destruct Hd as [-> | Hd]; [split; reflexivity |]).
  subst d. split; reflexivity.
Qed.

Lemma is_digit_digit_char (d : Z) : 0 <= d <= 9 -> is_digit (digit_char d) = true.
Proof. intros H. apply (digit_char_cases d H). Qed.

Lemma digit_val_digit_char (d : Z) : 0 <= d <= 9 -> digit_val (digit_char d) = d.
Proof. intros H. apply (digit_char_cases d H). Qed.

Lemma is_digit_code (c : ascii) : is_digit c = true -> 48 <= code c <= 57.
Proof. unfold is_digit. rewrite andb_true_iff, !Z.leb_le. tauto. Qed.

Lemma num_char_not_space (c : ascii) :
  is_num_char c = true -> is_space c = false /\ is_c_space c = false.
Proof.
  unfold is_num_char. rewrite orb_true_iff. intros [H | H].
  - apply is_digit_code in H. unfold is_space, is_c_space.
    split; repeat (rewrite ?andb_false_iff, ?orb_false_iff, ?Z.leb_gt, ?Z.eqb_neq); lia.
  - apply Ascii.eqb_eq in H. subst c. split; reflexivity.
Qed.

Lemma num_char_not_comma (c : ascii) :
  is_num_char c = true -> Ascii.eqb c "," = false.
Proof.
  unfold is_num_char. rewrite orb_true_iff. intros [H | H].
  - apply is_digit_code in H. apply Ascii.eqb_neq. intros ->.
    change (code ",") with 44 in H. lia.
  - apply Ascii.eqb_eq in H. subst c. reflexivity.
Qed.

Lemma int_digits_all_digits (s : string) :
  forall a seen,
    all_chars is_digit s = true ->
    s <> EmptyString \/ seen = true ->
    int_digits s a seen = Some (dval s a).
Proof.
  induction s as [| c r IH]; intros a seen Hall Hne; simpl in *.
  - destruct Hne as [Hne | ->]; [congruence | reflexivity].
  - apply andb_true_iff in Hall as [Hc Hr]. rewrite Hc.
    apply IH; auto.
Qed.

Lemma digits_acc_spec (f : nat) :
  forall n acc,
    0 <= n < 2 ^ Z.of_nat (S f) ->
    (all_chars is_digit acc = true ->
     all_chars is_digit (digits_acc (S f) n acc) = true) /\
    digits_acc (S f) n acc <> EmptyString /\
    (forall a, exists k, 0 <= k /\
       dval (digits_acc (S f) n acc) a = dval acc (a * 10 ^ k + n)).
Proof.
  induction f as [| f IH]; intros n acc Hn.
  - assert (n / 10 = 0) as Hq by (apply Z.div_small; change (2 ^ Z.of_nat 1) with 2 in Hn; lia).
    assert (n mod 10 = n) as Hm by (apply Z.mod_small; change (2 ^ Z.of_nat 1) with 2 in Hn; lia).
    cbn [digits_acc]. rewrite Hq, Hm. simpl.
    repeat split.
    + intros ->. rewrite is_digit_digit_char; [reflexivity |].
      change (2 ^ Z.of_nat 1) with 2 in Hn; lia.
    + discriminate.
    + intros a. exists 1. split; [lia |].
      rewrite digit_val_digit_char by (change (2 ^ Z.of_nat 1) with 2 in Hn; lia).
      f_equal. lia.
  - assert (0 <= n mod 10 <= 9) as Hm by (pose proof (Z.mod_pos_bound n 10); lia).
    change (digits_acc (S (S f)) n acc) with
      (let acc' := String (digit_char (n mod 10)) acc in
       if n / 10 =? 0 then acc' else digits_acc (S f) (n / 10) acc').
    cbv zeta.
    destruct (Z.eqb_spec (n / 10) 0) as [Hq | Hq].
    + repeat split.
      * intros Hacc. simpl. rewrite is_digit_digit_char by lia. exact Hacc.
      * discriminate.
      * intros a. exists 1. split; [lia |]. simpl.
        rewrite digit_val_digit_char by lia. f_equal.
        pose proof (Z.div_mod n 10). lia.
    + assert (0 <= n / 10 < 2 ^ Z.of_nat (S f)) as Hn'.
      { split; [apply Z.div_pos; lia |].
        apply Z.div_lt_upper_bound; [lia |].
        rewrite (Nat2Z.inj_succ (S f)), Z.pow_succ_r in Hn by lia. lia. }
      destruct (IH (n / 10) (String (digit_char (n mod 10)) acc) Hn')
        as (Hall & Hne & Hval).
      repeat split.
      * intros Hacc. apply Hall. simpl.
        rewrite is_digit_digit_char by lia. exact Hacc.
      * exact Hne.
      * intros a. destruct (Hval a) as (k & Hk & Hv).
        exists (k + 1). split; [lia |]. rewrite Hv. simpl.
        rewrite digit_val_digit_char by lia. f_equal.
        rewrite Z.pow_add_r by lia. pose proof (Z.div_mod n 10). lia.
Qed.

Lemma str_nonneg_fuel (n : Z) :
  0 <= n -> 0 <= n < 2 ^ Z.of_nat (S (Z.to_nat (Z.log2 n))).
Proof.
  intros Hn. split; [exact Hn |].
  rewrite Nat2Z.inj_succ, Z2Nat.id by apply Z.log2_nonneg.
  destruct (Z.eq_dec n 0) as [-> | Hz]; [reflexivity |].
  apply Z.log2_spec. lia.
Qed.

Lemma str_nonneg_digits (n : Z) :
  0 <= n -> all_chars is_digit (str_nonneg n) = true.
Proof.
  intros Hn. unfold str_nonneg.
  apply (digits_acc_spec _ n EmptyString (str_nonneg_fuel n Hn)). reflexivity.
Qed.

Lemma str_nonneg_nonempty (n : Z) : 0 <= n -> str_nonneg n <> EmptyString.
Proof.
  intros Hn. unfold str_nonneg.
  apply (digits_acc_spec _ n EmptyString (str_nonneg_fuel n Hn)).
Qed.

Lemma str_nonneg_value (n : Z) : 0 <= n -> dval (str_nonneg n) 0 = n.
Proof.
  intros Hn. unfold str_nonneg.
  destruct (digits_acc_spec _ n EmptyString (str_nonneg_fuel n Hn)) as (_ & _ & Hv).
  destruct (Hv 0) as (k & _ & ->). simpl. lia.
Qed.

Lemma int_digits_str_nonneg (n : Z) :
  0 <= n -> int_digits (str_nonneg n) 0 false = Some n.
Proof.
  intros Hn. rewrite int_digits_all_digits.
  - f_equal. apply str_nonneg_value; exact Hn.
  - apply str_nonneg_digits; exact Hn.
  - left. apply str_nonneg_nonempty; exact Hn.
Qed.

Lemma all_chars_impl (p q : ascii -> bool) (s : string) :
  (forall c, p c = true -> q c = true) ->
  all_chars p s = true -> all_chars q s = true.
Proof.
  intros Hpq. induction s as [| c r IH]; simpl; [reflexivity |].
  rewrite !andb_true_iff. intros [Hc Hr]. auto.
Qed.

Lemma str_int_num_chars (z : Z) : all_chars is_num_char (str_int z) = true.
Proof.
  unfold str_int. destruct (Z.ltb_spec z 0) as [Hz | Hz].
  - simpl. apply (all_chars_impl is_digit).
    + intros c Hc. unfold is_num_char. rewrite Hc. reflexivity.
    + apply str_nonneg_digits. lia.
  - apply (all_chars_impl is_digit).
    + intros c Hc. unfold is_num_char. rewrite Hc. reflexivity.
    + apply str_nonneg_digits. lia.
Qed.

Lemma str_int_nonempty (z : Z) : str_int z <> EmptyString.
Proof.
  unfold str_int. destruct (Z.ltb_spec z 0) as [Hz | Hz]; [discriminate |].
  apply str_nonneg_nonempty; exact Hz.
Qed.

(** Parsing what [str] printed. *)
Lemma int_signed_digit_first (c : ascii) (r : string) :
  is_digit c = true ->
  int_signed (String c r) = int_digits (String c r) 0 false.
Proof.
  intros Hc.
  destruct c as [[] [] [] [] [] [] [] []]; try discriminate Hc; reflexivity.
Qed.

Lemma int_signed_str_int (z : Z) : int_signed (str_int z) = Some z.
Proof.
  unfold str_int. destruct (Z.ltb_spec z 0) as [Hz | Hz].
  - simpl. rewrite int_digits_str_nonneg by lia. simpl. f_equal. lia.
  - pose proof (str_nonneg_digits z Hz) as Hd.
    pose proof (str_nonneg_nonempty z Hz) as Hne.
    pose proof (int_digits_str_nonneg z Hz) as Hp.
    destruct (str_nonneg z) as [| c r]; [congruence |].
    simpl in Hd. apply andb_true_iff in Hd as [Hc _].
    rewrite int_signed_digit_first by exact Hc. exact Hp.
Qed.

Lemma lstrip_with_head (sp : ascii -> bool) (c : ascii) (r : string) :
  sp c = false -> lstrip_with sp (String c r) = String c r.
Proof. intros H. simpl. rewrite H. reflexivity. Qed.

Lemma rstrip_with_id (sp : ascii -> bool) (s : string) :
  all_chars (fun c => negb (sp c)) s = true -> rstrip_with sp s = s.
Proof.
  induction s as [| c r IH]; simpl; [reflexivity |].
  rewrite andb_true_iff, negb_true_iff. intros [Hc Hr].
  rewrite (IH Hr). destruct r; [rewrite Hc |]; reflexivity.
Qed.

Lemma strip_with_id (sp : ascii -> bool) (s : string) :
  all_chars (fun c => negb (sp c)) s = true -> strip_with sp s = s.
Proof.
  intros H. unfold strip_with.
  assert (lstrip_with sp s = s) as ->.
  { destruct s as [| c r]; [reflexivity |]. simpl in H.
    apply andb_true_iff in H as [Hc _]. apply negb_true_iff in Hc.
    apply lstrip_with_head; exact Hc. }
  apply rstrip_with_id; exact H.
Qed.

Lemma str_int_no_space (z : Z) :
  all_chars (fun c => negb (is_space c)) (str_int z) = true /\
  all_chars (fun c => negb (is_c_space c)) (str_int z) = true.
Proof.
  split; apply (all_chars_impl is_num_char); try apply str_int_num_chars;
    intros c Hc; apply negb_true_iff; apply (num_char_not_space c Hc).
Qed.

Lemma int_of_str_str_int (z : Z) : int_of_str (str_int z) = Some z.
Proof.
  unfold int_of_str. rewrite strip_with_id by apply str_int_no_space.
  apply int_signed_str_int.
Qed.

Lemma strip_str_int (z : Z) : strip (str_int z) = str_int z.
Proof. unfold strip. apply strip_with_id, str_int_no_space. Qed.

Lemma strip_space_str_int (z : Z) : strip (String " " (str_int z)) = str_int z.
Proof.
  unfold strip, strip_with. change (lstrip_with is_space (String " " (str_int z)))
    with (lstrip_with is_space (str_int z)).
  apply strip_with_id, str_int_no_space.
Qed.

(** Splitting what [join] assembled. *)
Lemma append_nil (s : string) : EmptyString ++ s = s.
Proof. reflexivity. Qed.

Lemma append_cons (c : ascii) (a b : string) : String c a ++ b = String c (a ++ b).
Proof. reflexivity. Qed.

Lemma append_assoc (a b c : string) : (a ++ b) ++ c = a ++ (b ++ c).
Proof.
  induction a as [| x a IH]; rewrite ?append_nil, ?append_cons;
    [reflexivity | f_equal; exact IH].
Qed.

Lemma split_no_comma (s : string) : no_comma s = true -> split "," s = [s].
Proof.
  unfold no_comma. induction s as [| c r IH]; simpl; [reflexivity |].
  rewrite andb_true_iff, negb_true_iff. intros [Hc Hr].
  rewrite Hc, (IH Hr). reflexivity.
Qed.

Lemma split_app_comma (a rest : string) :
  no_comma a = true ->
  split "," (a ++ String "," rest) = a :: split "," rest.
Proof.
  unfold no_comma. induction a as [| c r IH];
    rewrite ?append_nil, ?append_cons; simpl; [reflexivity |].
  rewrite andb_true_iff, negb_true_iff. intros [Hc Hr].
  rewrite Hc, (IH Hr). reflexivity.
Qed.

Lemma no_comma_app (a b : string) :
  no_comma a = true -> no_comma b = true -> no_comma (a ++ b) = true.
Proof.
  unfold no_comma. induction a as [| c r IH];
    rewrite ?append_nil, ?append_cons; simpl; [auto |].
  rewrite !andb_true_iff. intros [Hc Hr] Hb. auto.
Qed.

Lemma split_join (items : list string) :
  Forall (fun s => no_comma s = true) items ->
  forall pre first rest,
    items = first :: rest ->
    no_comma pre = true ->
    split "," (pre ++ join ", " items) = (pre ++ first) :: map (String " ") rest.
Proof.
  induction 1 as [| a r Ha Hr IH]; intros pre first rest Heq Hpre;
    [discriminate |].
  injection Heq as <- <-.
  destruct r as [| b r'].
  - simpl. apply split_no_comma, no_comma_app; assumption.
  - change (join ", " (a :: b :: r')) with (a ++ ", " ++ join ", " (b :: r')).
    rewrite <- append_assoc.
    change (", " ++ join ", " (b :: r'))
      with (String "," (" " ++ join ", " (b :: r'))).
    rewrite split_app_comma by (apply no_comma_app; assumption).
    rewrite (IH " " b r' eq_refl eq_refl). reflexivity.
Qed.

Lemma str_int_no_comma (z : Z) : no_comma (str_int z) = true.
Proof.
  apply (all_chars_impl is_num_char); [| apply str_int_num_chars].
  intros c Hc. apply negb_true_iff, num_char_not_comma, Hc.
Qed.

End TextFacts.

(** *** The tone-curve codec *)
Module CodecFacts.
Import Py Models Metadata TextDefs CodecDefs TextFacts Samples.

Lemma pair_up_flatten (pts : list (Z * Z)) : pair_up (flatten pts) = pts.
Proof.
  induction pts as [| [x y] rest IH]; simpl; [reflexivity |].
  rewrite IH. reflexivity.
Qed.

Lemma flatten_pair_up (k : nat) :
  forall vs, length vs = (2 * k)%nat -> flatten (pair_up vs) = vs.
Proof.
  induction k as [| k IH]; intros vs Hlen.
  - destruct vs; [reflexivity | discriminate].
  - destruct vs as [| a [| b rest]]; simpl in Hlen; try lia.
    simpl. rewrite IH by lia. reflexivity.
Qed.

(** [pair_up] reads [values[2k]] and [values[2k+1]], as the loop does. *)
Lemma pair_up_lookup (vs : list Z) :
  forall k a b,
    pair_up vs !! k = Some (a, b) <->
    vs !! (2 * k)%nat = Some a /\ vs !! (2 * k + 1)%nat = Some b.
Proof.
  induction vs as [vs IH] using (induction_ltof1 _ (@length Z)).
  unfold ltof in IH. intros k a b.
  destruct vs as [| v0 [| v1 rest]].
  - simpl. rewrite !lookup_nil. split; [discriminate | intros [H _]; discriminate].
  - simpl. rewrite lookup_nil. split; [discriminate |].
    intros [_ H]. destruct k; simpl in H; discriminate.
  - destruct k as [| k].
    + simpl. split.
      * intros [= <- <-]. split; reflexivity.
      * intros [[= ->] [= ->]]. reflexivity.
    + change (pair_up (v0 :: v1 :: rest)) with ((v0, v1) :: pair_up rest).
      replace (2 * S k)%nat with (S (S (2 * k))) by lia.
      replace (S (S (2 * k)) + 1)%nat with (S (S (2 * k + 1))) by lia.
      simpl. apply IH. simpl. lia.
Qed.

Lemma rmap_list_length {A B} (f : A -> result B) (l : list A) :
  forall out, rmap_list f l = Ok out -> length out = length l.
Proof.
  induction l as [| a r IH]; simpl; intros out H.
  - injection H as <-. reflexivity.
  - destruct (f a); simpl in H; [| discriminate].
    destruct (rmap_list f r); simpl in H; [| discriminate].
    injection H as <-. simpl. f_equal. apply IH. reflexivity.
Qed.

Lemma split_nonempty (sep : ascii) (s : string) : split sep s <> [].
Proof.
  induction s as [| c r IH]; simpl; [discriminate |].
  destruct (Ascii.eqb c sep); [discriminate |].
  destruct (split sep r); discriminate.
Qed.

Lemma int_of_token_raises (t : string) (e : exn) :
  int_of_token t = Raise e -> e = ValueError.
Proof. unfold int_of_token. destruct (int_of_str (strip t)); congruence. Qed.

Lemma tokens_raise (l : list string) (e : exn) :
  rmap_list int_of_token l = Raise e -> e = ValueError.
Proof.
  induction l as [| t r IH]; simpl; [discriminate |].
  destruct (int_of_token t) eqn:Ht; simpl.
  - destruct (rmap_list int_of_token r); simpl; [discriminate |].
    intros [= <-]. apply IH. reflexivity.
  - intros [= <-]. apply (int_of_token_raises t). exact Ht.
Qed.

(** The decoder on a string, in one equation. *)
Lemma parse_string (s : string) :
  _parse_tone_curve (VStr s) =
  Ok (match numeric_sequence s with
      | Ok values => curve_of_values values
      | Raise _ => None
      end).
Proof.
  unfold _parse_tone_curve, numeric_sequence. simpl truthy.
  destruct (String.eqb_spec s "") as [-> | Hne]; [reflexivity |].
  simpl negb. cbv iota.
  destruct (rmap_list int_of_token (split "," s)) as [vs | e] eqn:Htok; simpl.
  - reflexivity.
  - apply tokens_raise in Htok. subst e. reflexivity.
Qed.

Lemma int_of_token_str_int (z : Z) : int_of_token (str_int z) = Ok z.
Proof.
  unfold int_of_token. rewrite strip_str_int, int_of_str_str_int. reflexivity.
Qed.

Lemma int_of_token_space_str_int (z : Z) :
  int_of_token (String " " (str_int z)) = Ok z.
Proof.
  unfold int_of_token. rewrite strip_space_str_int, int_of_str_str_int.
  reflexivity.
Qed.

Lemma tokens_spaced (vs : list Z) :
  rmap_list int_of_token (map (String " ") (map str_int vs)) = Ok vs.
Proof.
  induction vs as [| v r IH]; simpl; [reflexivity |].
  rewrite int_of_token_space_str_int. simpl. rewrite IH. reflexivity.
Qed.

Lemma numeric_sequence_join (vs : list Z) :
  vs <> [] -> numeric_sequence (join ", " (map str_int vs)) = Ok vs.
Proof.
  intros Hne. destruct vs as [| v r]; [congruence |].
  unfold numeric_sequence.
  rewrite <- (append_nil (join ", " (map str_int (v :: r)))).
  rewrite (split_join (map str_int (v :: r)))
    with (first := str_int v) (rest := map str_int r).
  - rewrite append_nil. simpl. rewrite int_of_token_str_int. simpl.
    rewrite tokens_spaced. reflexivity.
  - generalize (v :: r). intros l.
    induction l; constructor; auto using str_int_no_comma.
  - reflexivity.
  - reflexivity.
Qed.

(** The text of a curve with points is the joined flat sequence. *)
Lemma ToneCurve_str_join (pts : list (Z * Z)) :
  pts <> [] ->
  ToneCurve_str (mkToneCurve pts) = join ", " (map str_int (flatten pts)).
Proof.
  intros Hne. unfold ToneCurve_str. simpl points.
  destruct pts as [| p rest]; [congruence |]. clear Hne.
  revert p. induction rest as [| q rest IH]; intros [x y].
  - reflexivity.
  - specialize (IH q).
    change (join ", " (map (fun '(x, y) => str_int x ++ ", " ++ str_int y)
                           ((x, y) :: q :: rest)))
      with ((str_int x ++ ", " ++ str_int y) ++ ", " ++
            join ", " (map (fun '(x, y) => str_int x ++ ", " ++ str_int y)
                           (q :: rest))).
    rewrite IH. destruct q as [x' y'].
    change (map str_int (flatten ((x, y) :: (x', y') :: rest)))
      with (str_int x :: str_int y :: map str_int (flatten ((x', y') :: rest))).
    change (flatten ((x', y') :: rest)) with (x' :: y' :: flatten rest).
    change (map str_int (x' :: y' :: flatten rest))
      with (str_int x' :: map str_int (y' :: flatten rest)).
    change (join ", " (str_int x :: str_int y :: str_int x' :: map str_int (y' :: flatten rest)))
      with (str_int x ++ ", " ++ str_int y ++ ", " ++
            join ", " (str_int x' :: map str_int (y' :: flatten rest))).
    rewrite !append_assoc. reflexivity.
Qed.

Lemma numeric_sequence_ToneCurve_str (pts : list (Z * Z)) :
  pts <> [] ->
  numeric_sequence (ToneCurve_str (mkToneCurve pts)) = Ok (flatten pts).
Proof.
  intros Hne. rewrite ToneCurve_str_join by exact Hne.
  apply numeric_sequence_join. destruct pts as [| [x y] r]; [congruence | discriminate].
Qed.

(** Decoding the text of a curve with points gives the curve back,
    whatever the integers. *)
Lemma parse_ToneCurve_str (pts : list (Z * Z)) :
  pts <> [] ->
  _parse_tone_curve (VStr (ToneCurve_str (mkToneCurve pts)))
  = Ok (Some (mkToneCurve pts)).
Proof.
  intros Hne. rewrite parse_string, numeric_sequence_ToneCurve_str by exact Hne.
  unfold curve_of_values. rewrite pair_up_flatten.
  destruct pts; [congruence | reflexivity].
Qed.

(** C1, as the code has it: a curve with at least one point, all in
    [0,255] x [0,255], is decoded back from its text; the curve without
    points is written as the empty string, which decodes to no curve; and
    for a string with an even number of tokens that all parse, the text of
    the decoded curve has the same numeric sequence. *)
Theorem tone_curve_codec_round_trip (c : ToneCurve) (s : string) (vs : list Z) :
  (points c <> [] -> Forall in_range (points c) ->
   _parse_tone_curve (VStr (ToneCurve_str c)) = Ok (Some c)) /\
  (points c = [] ->
   ToneCurve_str c = "" /\ _parse_tone_curve (VStr (ToneCurve_str c)) = Ok None) /\
  (Nat.Even (length (split "," s)) -> numeric_sequence s = Ok vs ->
   exists c', _parse_tone_curve (VStr s) = Ok (Some c') /\
              points c' = pair_up vs /\
              numeric_sequence (ToneCurve_str c') = Ok vs).
Proof.
  destruct c as [pts]. simpl points. repeat split.
  - intros Hne _. apply parse_ToneCurve_str; exact Hne.
  - subst pts. reflexivity.
  - subst pts. reflexivity.
  - intros [k Hk] Hvs.
    pose proof (rmap_list_length _ _ _ Hvs) as Hlen.
    fold (numeric_sequence s) in Hvs. rewrite Hk in Hlen.
    assert (pair_up vs <> []) as Hpts.
    { destruct vs as [| a [| b r]]; simpl in *; try discriminate.
      - pose proof (split_nonempty "," s) as Hs.
        destruct (split "," s); [congruence | simpl in Hk; lia].
      - lia. }
    exists (mkToneCurve (pair_up vs)). repeat split.
    + rewrite parse_string, Hvs. unfold curve_of_values.
      destruct (pair_up vs); [congruence | reflexivity].
    + rewrite numeric_sequence_ToneCurve_str by exact Hpts.
      rewrite (flatten_pair_up k) by exact Hlen. reflexivity.
Qed.

Lemma tone_curve_codec_round_trip_witness :
  _parse_tone_curve (VStr (ToneCurve_str three_points)) = Ok (Some three_points) /\
  exists c', _parse_tone_curve (VStr "0, 0, 32, 22") = Ok (Some c') /\
             points c' = pair_up [0; 0; 32; 22] /\
             numeric_sequence (ToneCurve_str c') = Ok [0; 0; 32; 22].
Proof.
  destruct (tone_curve_codec_round_trip three_points "0, 0, 32, 22" [0; 0; 32; 22])
    as (H1 & _ & H3).
  split.
  - apply H1; [discriminate |].
    repeat constructor; simpl; lia.
  - apply H3; [exists 2%nat; reflexivity | reflexivity].
Defined.

(** C1 as stated fails on the curve without points: its text is empty and
    decodes to no curve, not to the curve. *)
Lemma tone_curve_codec_empty_curve :
  Forall in_range (points no_points) /\
  ToneCurve_str no_points = "" /\
  _parse_tone_curve (VStr (ToneCurve_str no_points)) = Ok None /\
  _parse_tone_curve (VStr (ToneCurve_str no_points)) <> Ok (Some no_points).
Proof. split; [constructor |]. repeat split; discriminate. Qed.

End CodecFacts.

(** *** The adjustment model *)
Module ModelFacts.
Import Py Models Samples.

Lemma has_adjustments_iff (a : LightroomAdjustments) :
  has_adjustments a = true <->
  (exists v, In v (basic_adjustments a) /\ v <> VNone) \/ tone_curve a <> None.
Proof.
  unfold has_adjustments. rewrite orb_true_iff, existsb_exists.
  split; intros [H | H].
  - left. destruct H as (v & Hin & Hv). exists v. split; [exact Hin |].
    destruct v; simpl in Hv; congruence.
  - right. destruct (tone_curve a); simpl in H; congruence.
  - left. destruct H as (v & Hin & Hv). exists v. split; [exact Hin |].
    destruct v; simpl; congruence.
  - right. destruct (tone_curve a); simpl; congruence.
Qed.

(** The examples of the specification. *)
Lemma has_adjustments_examples :
  has_adjustments (new_adjustments None) = false /\
  has_adjustments
    (setattr (new_adjustments None) "exposure" (VFloat (S754_finite false 3 (-1))))
  = true /\
  has_adjustments
    (set_tone_curve (new_adjustments None) (Some (mkToneCurve [(0, 0); (255, 255)])))
  = true /\
  has_adjustments (set_hue (new_adjustments None) "red" (VInt 10)) = false /\
  has_adjustments
    (setattr (setattr (setattr (new_adjustments None)
       "luminance_noise_reduction" (VInt 5)) "vignette_amount" (VInt 5))
       "grain_amount" (VInt 5))
  = false.
Proof. repeat split; reflexivity. Qed.

(** C2 at the input where the code departs from it: every scalar field is
    null and the primary curve has no point, yet [has_adjustments] is
    true, because an instance of [ToneCurve] is always true. *)
Theorem has_adjustments_empty_curve :
  Forall (fun v => v = VNone) (basic_adjustments only_empty_curve) /\
  tone_curve only_empty_curve = Some no_points /\
  points no_points = [] /\
  has_adjustments only_empty_curve = true.
Proof. repeat split; repeat constructor. Qed.

End ModelFacts.

(** *** The importer *)
Module ImportFacts.
Import Py Models Metadata TextDefs CodecDefs ImportDefs TextFacts CodecFacts Samples.

(** **** What escapes the decoder *)

Lemma int_of_raises (v : pyval) (e : exn) :
  int_of v = Raise e ->
  e = ValueError \/ e = TypeError \/
  (e = OverflowError /\ exists s, v = VFloat (S754_infinity s)).
Proof.
  destruct v as [| b | z | f | s | l | d]; simpl; try (intros [= <-]; auto);
    try discriminate.
  - destruct f; simpl; try discriminate; intros [= <-]; eauto.
  - destruct (int_of_str s); [discriminate | intros [= <-]; auto].
Qed.

Lemma items_raise (l : list pyval) (e : exn) :
  rmap_list int_of l = Raise e ->
  e = ValueError \/ e = TypeError \/
  (e = OverflowError /\ exists s, In (VFloat (S754_infinity s)) l).
Proof.
  induction l as [| v r IH]; simpl; [discriminate |].
  destruct (int_of v) eqn:Hv; simpl.
  - destruct (rmap_list int_of r); simpl; [discriminate |].
    intros [= <-]. destruct (IH eq_refl) as [H | [H | [H [s Hs]]]]; eauto 6.
  - intros [= <-]. destruct (int_of_raises v e0 Hv) as [H | [H | [H [s ->]]]];
      eauto 6.
Qed.

(** The decoder lets an exception out only for a list that holds an
    infinite float, and the exception is [OverflowError]. *)
Lemma parse_raises (v : pyval) (e : exn) :
  _parse_tone_curve v = Raise e ->
  e = OverflowError /\
  exists l s, v = VList l /\ In (VFloat (S754_infinity s)) l.
Proof.
  unfold _parse_tone_curve. destruct (negb (truthy v)); [discriminate |].
  destruct v as [| b | z | f | s | l | d]; try discriminate.
  - fold (numeric_sequence s).
    destruct (numeric_sequence s) as [vs | e'] eqn:Hs; simpl; [discriminate |].
    apply tokens_raise in Hs. subst e'. discriminate.
  - destruct (rmap_list int_of l) as [vs | e'] eqn:Hl; simpl; [discriminate |].
    destruct (items_raise l e' Hl) as [-> | [-> | [-> [s Hs]]]];
      try discriminate.
    intros [= <-]. eauto.
Qed.

(** C7 at the input where the code departs from it: an infinite float in
    the list form is a token that is no integer, and the decoder raises
    instead of returning no curve; the same token as NaN, as text or as
    [None] is discarded as the claim says. *)
Theorem parse_tone_curve_infinite_item :
  _parse_tone_curve (VList [VInt 0; VFloat (S754_infinity false)])
  = Raise OverflowError /\
  _parse_tone_curve (VList [VInt 0; VFloat S754_nan]) = Ok None /\
  _parse_tone_curve (VList [VInt 0; VStr "inf"]) = Ok None /\
  _parse_tone_curve (VList [VInt 0; VNone]) = Ok None.
Proof. repeat split; reflexivity. Qed.

(** The examples of the specification for the decoder. *)
Lemma parse_examples :
  _parse_tone_curve (VStr "0, 0, 32, 22, 64, 56, 128, 128, 192, 196, 255, 255")
  = Ok (Some (mkToneCurve [(0, 0); (32, 22); (64, 56); (128, 128); (192, 196); (255, 255)])) /\
  _parse_tone_curve (VStr "0,0,10") = Ok (Some (mkToneCurve [(0, 0)])) /\
  _parse_tone_curve (VStr "not a curve") = Ok None /\
  _parse_tone_curve (VStr "") = Ok None /\
  _parse_tone_curve VNone = Ok None /\
  _parse_tone_curve (VList []) = Ok None.
Proof. repeat split; vm_compute; reflexivity. Qed.

(** **** [setattr] and [getattr] *)

(** Case analysis on a name along the scalar fields; [tac] closes the
    case of each field. *)
Ltac by_name n tac :=
  (destruct (String.eqb_spec n "exposure") as [-> | ?]; [tac |]);
  (destruct (String.eqb_spec n "contrast") as [-> | ?]; [tac |]);
  (destruct (String.eqb_spec n "highlights") as [-> | ?]; [tac |]);
  (destruct (String.eqb_spec n "shadows") as [-> | ?]; [tac |]);
  (destruct (String.eqb_spec n "whites") as [-> | ?]; [tac |]);
  (destruct (String.eqb_spec n "blacks") as [-> | ?]; [tac |]);
  (destruct (String.eqb_spec n "temperature") as [-> | ?]; [tac |]);
  (destruct (String.eqb_spec n "tint") as [-> | ?]; [tac |]);
  (destruct (String.eqb_spec n "vibrance") as [-> | ?]; [tac |]);
  (destruct (String.eqb_spec n "saturation") as [-> | ?]; [tac |]);
  (destruct (String.eqb_spec n "clarity") as [-> | ?]; [tac |]);
  (destruct (String.eqb_spec n "dehaze") as [-> | ?]; [tac |]);
  (destruct (String.eqb_spec n "texture") as [-> | ?]; [tac |]);
  (destruct (String.eqb_spec n "sharpness") as [-> | ?]; [tac |]);
  (destruct (String.eqb_spec n "luminance_noise_reduction") as [-> | ?]; [tac |]);
  (destruct (String.eqb_spec n "color_noise_reduction") as [-> | ?]; [tac |]);
  (destruct (String.eqb_spec n "vignette_amount") as [-> | ?]; [tac |]);
  (destruct (String.eqb_spec n "grain_amount") as [-> | ?]; [tac |]).

Lemma getattr_setattr_eq (a : LightroomAdjustments) (n : string) (v : pyval) :
  getattr (setattr a n v) n = Some v.
Proof.
  destruct a. unfold setattr, getattr. by_name n ltac:(reflexivity).
  simpl. apply lookup_insert_eq.
Qed.

Lemma getattr_setattr_ne (a : LightroomAdjustments) (n m : string) (v : pyval) :
  n <> m -> getattr (setattr a n v) m = getattr a m.
Proof.
  intros Hne. destruct a. unfold setattr.
  by_name n ltac:(unfold getattr;
                  by_name m ltac:(first [reflexivity | congruence]);
                  reflexivity).
  unfold getattr. by_name m ltac:(reflexivity).
  simpl. apply lookup_insert_ne. exact Hne.
Qed.

Lemma setattr_frame (a : LightroomAdjustments) (n : string) (v : pyval) :
  tone_curve (setattr a n v) = tone_curve a /\
  hue_adjustments (setattr a n v) = hue_adjustments a /\
  saturation_adjustments (setattr a n v) = saturation_adjustments a /\
  luminance_adjustments (setattr a n v) = luminance_adjustments a /\
  source_file (setattr a n v) = source_file a.
Proof.
  destruct a. unfold setattr.
  repeat (destruct (String.eqb n _); [repeat split; reflexivity |]).
  repeat split; reflexivity.
Qed.

Lemma set_tone_curve_frame (a : LightroomAdjustments) (c : option ToneCurve) :
  tone_curve (set_tone_curve a c) = c /\
  (forall n, getattr (set_tone_curve a c) n = getattr a n) /\
  hue_adjustments (set_tone_curve a c) = hue_adjustments a /\
  saturation_adjustments (set_tone_curve a c) = saturation_adjustments a /\
  luminance_adjustments (set_tone_curve a c) = luminance_adjustments a /\
  source_file (set_tone_curve a c) = source_file a.
Proof. destruct a. repeat split; reflexivity. Qed.

(** **** The loops on a dictionary *)

Lemma contains_dict (d : gmap string pyval) (k : string) :
  contains (VDict d) k = Ok (match d !! k with Some _ => true | None => false end).
Proof.
  simpl. f_equal. destruct (d !! k) eqn:Hk.
  - apply bool_decide_eq_true. eauto.
  - apply bool_decide_eq_false. intros [x Hx]. discriminate.
Qed.

Lemma getitem_dict (d : gmap string pyval) (k : string) :
  getitem (VDict d) k =
  match d !! k with Some x => Ok x | None => Raise KeyError end.
Proof. reflexivity. Qed.

Lemma for_each_cons {X} (x : X) (rest : list X) (body : X -> M unit)
    (a a' : LightroomAdjustments) :
  body x a = (Ok tt, a') ->
  for_each (x :: rest) body a = for_each rest body a'.
Proof. intros H. simpl. unfold bind. rewrite H. reflexivity. Qed.

Lemma import_tags_run (d : gmap string pyval) (tags : list (string * string)) :
  (forall tag, In (tag, "tone_curve") tags -> tag = "XMP:ToneCurvePV2012") ->
  curve_decodes d ->
  forall a,
    for_each tags (fun '(xmp_tag, attr_name) =>
      let* present := lift (contains (VDict d) xmp_tag) in
      when present
        (let* value := lift (getitem (VDict d) xmp_tag) in
         if String.eqb attr_name "tone_curve"
         then (let* c := lift (_parse_tone_curve value) in
               update (fun a => set_tone_curve a c))
         else update (fun a => setattr a attr_name value))) a
    = (Ok tt, fold_left (import_step d) tags a).
Proof.
  intros Htone Hdec.
  induction tags as [| [tag attr] rest IH]; intros a; [reflexivity |].
  rewrite (for_each_cons _ _ _ a (import_step d a (tag, attr))).
  - apply IH. intros t Ht. apply Htone. right. exact Ht.
  - unfold bind, lift, when, update, import_step.
    rewrite contains_dict, getitem_dict.
    destruct (d !! tag) as [v |] eqn:Hv; [| reflexivity].
    destruct (String.eqb_spec attr "tone_curve") as [-> | Hattr]; [| reflexivity].
    assert (tag = "XMP:ToneCurvePV2012") as -> by (apply Htone; left; reflexivity).
    destruct (Hdec v Hv) as [c ->]. reflexivity.
Qed.

Lemma extract_hsl_run (d : gmap string pyval) (cs : list string) :
  forall a,
    for_each cs (fun color =>
      let hue_tag := "XMP:HueAdjustment" ++ color in
      let* has_hue := lift (contains (VDict d) hue_tag) in
      let* _ := when has_hue
                  (let* v := lift (getitem (VDict d) hue_tag) in
                   update (fun a => set_hue a (lower color) v)) in
      let sat_tag := "XMP:SaturationAdjustment" ++ color in
      let* has_sat := lift (contains (VDict d) sat_tag) in
      let* _ := when has_sat
                  (let* v := lift (getitem (VDict d) sat_tag) in
                   update (fun a => set_sat a (lower color) v)) in
      let lum_tag := "XMP:LuminanceAdjustment" ++ color in
      let* has_lum := lift (contains (VDict d) lum_tag) in
      when has_lum
        (let* v := lift (getitem (VDict d) lum_tag) in
         update (fun a => set_lum a (lower color) v))) a
    = (Ok tt, fold_left (band_step d) cs a).
Proof.
  induction cs as [| color rest IH]; intros a; [reflexivity |].
  rewrite (for_each_cons _ _ _ a (band_step d a color)).
  - apply IH.
  - cbv zeta. unfold bind, lift, when, update, band_step.
    rewrite !contains_dict, !getitem_dict.
    destruct (d !! ("XMP:HueAdjustment" ++ color));
      destruct (d !! ("XMP:SaturationAdjustment" ++ color));
      destruct (d !! ("XMP:LuminanceAdjustment" ++ color)); reflexivity.
Qed.

(** **** What the loops leave in each attribute *)

Lemma import_step_getattr_ne (d : gmap string pyval) (a : LightroomAdjustments)
    (tag attr m : string) :
  attr <> m -> getattr (import_step d a (tag, attr)) m = getattr a m.
Proof.
  intros Hne. unfold import_step. destruct (d !! tag) as [v |]; [| reflexivity].
  destruct (String.eqb attr "tone_curve").
  - destruct (_parse_tone_curve v); [| reflexivity].
    apply set_tone_curve_frame.
  - apply getattr_setattr_ne. exact Hne.
Qed.

Lemma import_step_frame (d : gmap string pyval) (a : LightroomAdjustments)
    (entry : string * string) :
  hue_adjustments (import_step d a entry) = hue_adjustments a /\
  saturation_adjustments (import_step d a entry) = saturation_adjustments a /\
  luminance_adjustments (import_step d a entry) = luminance_adjustments a /\
  source_file (import_step d a entry) = source_file a.
Proof.
  destruct entry as [tag attr]. unfold import_step.
  destruct (d !! tag) as [v |]; [| auto].
  destruct (String.eqb attr "tone_curve").
  - destruct (_parse_tone_curve v); [| auto].
    destruct (set_tone_curve_frame a a0) as (_ & _ & ? & ? & ? & ?). auto.
  - destruct (setattr_frame a attr v) as (_ & ? & ? & ? & ?). auto.
Qed.

Lemma import_step_tone_ne (d : gmap string pyval) (a : LightroomAdjustments)
    (tag attr : string) :
  attr <> "tone_curve" ->
  tone_curve (import_step d a (tag, attr)) = tone_curve a.
Proof.
  intros Hne. unfold import_step. destruct (d !! tag) as [v |]; [| reflexivity].
  destruct (String.eqb_spec attr "tone_curve"); [congruence |].
  apply setattr_frame.
Qed.

Lemma fold_import_getattr_other (d : gmap string pyval)
    (tags : list (string * string)) (m : string) :
  ~ In m (map snd tags) ->
  forall a, getattr (fold_left (import_step d) tags a) m = getattr a m.
Proof.
  induction tags as [| [t0 n0] rest IH]; intros Hm a; [reflexivity |].
  simpl in Hm. simpl fold_left. rewrite IH by tauto.
  apply import_step_getattr_ne. tauto.
Qed.

Lemma fold_import_getattr (d : gmap string pyval)
    (tags : list (string * string)) :
  List.NoDup (map snd tags) ->
  forall a tag attr,
    In (tag, attr) tags -> attr <> "tone_curve" ->
    getattr (fold_left (import_step d) tags a) attr =
    match d !! tag with
    | Some v => Some v
    | None => getattr a attr
    end.
Proof.
  induction tags as [| [t0 n0] rest IH]; intros Hnd a tag attr Hin Hattr;
    [destruct Hin |].
  simpl in Hnd. apply List.NoDup_cons_iff in Hnd as [Hn0 Hnd].
  simpl fold_left. destruct Hin as [[= -> ->] | Hin].
  - rewrite fold_import_getattr_other by exact Hn0.
    unfold import_step. destruct (d !! tag) as [v |]; [| reflexivity].
    destruct (String.eqb_spec attr "tone_curve"); [congruence |].
    apply getattr_setattr_eq.
  - rewrite (IH Hnd _ tag attr Hin Hattr).
    destruct (d !! tag); [reflexivity |].
    apply import_step_getattr_ne. intros ->. apply Hn0.
    apply (in_map snd) in Hin. exact Hin.
Qed.

Lemma fold_import_tone_other (d : gmap string pyval)
    (tags : list (string * string)) :
  ~ In "tone_curve" (map snd tags) ->
  forall a, tone_curve (fold_left (import_step d) tags a) = tone_curve a.
Proof.
  induction tags as [| [t0 n0] rest IH]; intros Hm a; [reflexivity |].
  simpl in Hm. simpl fold_left. rewrite IH by tauto.
  apply import_step_tone_ne. intros ->. tauto.
Qed.

Lemma fold_import_frame (d : gmap string pyval) (tags : list (string * string)) :
  forall a,
    hue_adjustments (fold_left (import_step d) tags a) = hue_adjustments a /\
    saturation_adjustments (fold_left (import_step d) tags a)
    = saturation_adjustments a /\
    luminance_adjustments (fold_left (import_step d) tags a)
    = luminance_adjustments a /\
    source_file (fold_left (import_step d) tags a) = source_file a.
Proof.
  induction tags as [| entry rest IH]; intros a; [auto |].
  simpl fold_left. destruct (IH (import_step d a entry)) as (-> & -> & -> & ->).
  apply import_step_frame.
Qed.

Lemma not_in_names (m : string) (l : list string) :
  forallb (fun n => negb (String.eqb n m)) l = true -> ~ In m l.
Proof.
  intros Hall Hin. rewrite forallb_forall in Hall.
  specialize (Hall m Hin). rewrite String.eqb_refl in Hall. discriminate.
Qed.

Lemma fold_left_step {A B} (f : A -> B -> A) (x : B) (l : list B) (a : A) :
  fold_left f (x :: l) a = fold_left f l (f a x).
Proof. reflexivity. Qed.

Lemma LR_TAGS_split :
  LR_TAGS =
  (firstn 18 LR_TAGS ++ ("XMP:ToneCurvePV2012", "tone_curve") :: skipn 19 LR_TAGS)%list.
Proof. reflexivity. Qed.

Lemma fold_import_tone (d : gmap string pyval) (a : LightroomAdjustments) :
  tone_curve a = None ->
  tone_curve (fold_left (import_step d) LR_TAGS a) = imported_curve d.
Proof.
  intros Ha. rewrite LR_TAGS_split, fold_left_app.
  rewrite fold_left_step.
  rewrite fold_import_tone_other by (apply not_in_names; reflexivity).
  unfold import_step at 1, imported_curve.
  destruct (d !! "XMP:ToneCurvePV2012") as [v |].
  - change (String.eqb "tone_curve" "tone_curve") with true. cbv iota.
    destruct (_parse_tone_curve v); [apply set_tone_curve_frame |].
    rewrite fold_import_tone_other by (apply not_in_names; reflexivity).
    exact Ha.
  - rewrite fold_import_tone_other by (apply not_in_names; reflexivity).
    exact Ha.
Qed.

(** The colour bands *)

Lemma band_step_frame (d : gmap string pyval) (a : LightroomAdjustments)
    (color : string) :
  (forall n, getattr (band_step d a color) n = getattr a n) /\
  tone_curve (band_step d a color) = tone_curve a /\
  source_file (band_step d a color) = source_file a.
Proof.
  destruct a. unfold band_step.
  destruct (d !! ("XMP:HueAdjustment" ++ color));
    destruct (d !! ("XMP:SaturationAdjustment" ++ color));
    destruct (d !! ("XMP:LuminanceAdjustment" ++ color));
    repeat split; reflexivity.
Qed.

Lemma fold_band_frame (d : gmap string pyval) (cs : list string) :
  forall a,
    (forall n, getattr (fold_left (band_step d) cs a) n = getattr a n) /\
    tone_curve (fold_left (band_step d) cs a) = tone_curve a /\
    source_file (fold_left (band_step d) cs a) = source_file a.
Proof.
  induction cs as [| c rest IH]; intros a; [auto |].
  simpl fold_left. destruct (IH (band_step d a c)) as (Hg & -> & ->).
  destruct (band_step_frame d a c) as (Hg' & -> & ->).
  split; [| auto]. intros n. rewrite Hg. apply Hg'.
Qed.

Lemma band_step_maps (d : gmap string pyval) (a : LightroomAdjustments)
    (color : string) :
  band_maps (band_step d a color) =
  (put (d !! ("XMP:HueAdjustment" ++ color)) (lower color) (hue_adjustments a),
   put (d !! ("XMP:SaturationAdjustment" ++ color)) (lower color)
       (saturation_adjustments a),
   put (d !! ("XMP:LuminanceAdjustment" ++ color)) (lower color)
       (luminance_adjustments a)).
Proof.
  destruct a. unfold band_step, band_maps.
  destruct (d !! ("XMP:HueAdjustment" ++ color));
    destruct (d !! ("XMP:SaturationAdjustment" ++ color));
    destruct (d !! ("XMP:LuminanceAdjustment" ++ color)); reflexivity.
Qed.

Lemma put_lookup (o : option pyval) (k k' : string) (m : gmap string pyval) :
  put o k m !! k' =
  if decide (k = k')
  then match o with Some v => Some v | None => m !! k' end
  else m !! k'.
Proof.
  unfold put. destruct o as [v |].
  - rewrite lookup_insert. destruct (decide (k = k')); reflexivity.
  - destruct (decide (k = k')); reflexivity.
Qed.

Lemma fold_band_other (d : gmap string pyval) (cs : list string) (k : string) :
  ~ In k (map lower cs) ->
  forall a,
    hue_adjustments (fold_left (band_step d) cs a) !! k
    = hue_adjustments a !! k /\
    saturation_adjustments (fold_left (band_step d) cs a) !! k
    = saturation_adjustments a !! k /\
    luminance_adjustments (fold_left (band_step d) cs a) !! k
    = luminance_adjustments a !! k.
Proof.
  induction cs as [| c1 rest IH]; intros Hk a; [auto |].
  simpl in Hk. simpl fold_left.
  destruct (IH ltac:(tauto) (band_step d a c1)) as (-> & -> & ->).
  pose proof (band_step_maps d a c1) as Hm. unfold band_maps in Hm.
  injection Hm as -> -> ->. rewrite !put_lookup.
  destruct (decide (lower c1 = k)); [tauto | auto].
Qed.

(** After the loop over the colours, each band key holds the value of its
    tag, or what it held before when the tag is absent. *)
Lemma fold_band_maps (d : gmap string pyval) (cs : list string) :
  List.NoDup (map lower cs) ->
  forall a color, In color cs ->
    hue_adjustments (fold_left (band_step d) cs a) !! lower color =
      match d !! ("XMP:HueAdjustment" ++ color) with
      | Some v => Some v
      | None => hue_adjustments a !! lower color
      end /\
    saturation_adjustments (fold_left (band_step d) cs a) !! lower color =
      match d !! ("XMP:SaturationAdjustment" ++ color) with
      | Some v => Some v
      | None => saturation_adjustments a !! lower color
      end /\
    luminance_adjustments (fold_left (band_step d) cs a) !! lower color =
      match d !! ("XMP:LuminanceAdjustment" ++ color) with
      | Some v => Some v
      | None => luminance_adjustments a !! lower color
      end.
Proof.
  induction cs as [| c0 rest IH]; intros Hnd a color Hin; [destruct Hin |].
  simpl in Hnd. apply List.NoDup_cons_iff in Hnd as [Hc0 Hnd].
  simpl fold_left.
  pose proof (band_step_maps d a c0) as Hm. unfold band_maps in Hm.
  injection Hm as Hh Hs Hl.
  destruct Hin as [-> | Hin].
  - destruct (fold_band_other d rest (lower color) Hc0 (band_step d a color))
      as (-> & -> & ->).
    rewrite Hh, Hs, Hl, !put_lookup.
    destruct (decide (lower color = lower color)); [auto | congruence].
  - destruct (IH Hnd (band_step d a c0) color Hin) as (-> & -> & ->).
    rewrite Hh, Hs, Hl, !put_lookup.
    destruct (decide (lower c0 = lower color)) as [Heq | _]; [| auto].
    exfalso. apply Hc0. rewrite Heq. apply in_map. exact Hin.
Qed.

(** **** The claims on the importer *)

Lemma tone_tag_unique (tag : string) :
  In (tag, "tone_curve") LR_TAGS -> tag = "XMP:ToneCurvePV2012".
Proof.
  intros H. unfold LR_TAGS in H.
  repeat (destruct H as [H | H]; [injection H as <-; try discriminate; reflexivity |]).
  destruct H.
Qed.

Lemma NoDup_by_compute (l : list string) :
  bool_decide (NoDup l) = true -> List.NoDup l.
Proof. intros H. apply NoDup_ListNoDup. apply bool_decide_eq_true in H. exact H. Qed.

(** What [extract] returns for a dictionary whose tone curve decodes
    without an exception: the two loops run to their end. *)
Lemma extract_dict (get_metadata : string -> result pyval) (path : string)
    (d : gmap string pyval) (rest : list pyval) :
  get_metadata path = Ok (VList (VDict d :: rest)) ->
  curve_decodes d ->
  extract get_metadata path =
  mkExtraction
    (Ok (fold_left (band_step d) colors
           (fold_left (import_step d) LR_TAGS (new_adjustments (Some path)))))
    None.
Proof.
  intros Hget Hdec. unfold extract. rewrite Hget. simpl truthy. cbv iota.
  simpl negb. cbv iota. unfold bind, import_tags, _extract_hsl_adjustments.
  rewrite (import_tags_run d LR_TAGS tone_tag_unique Hdec).
  rewrite extract_hsl_run. reflexivity.
Qed.


(** What the two loops leave in each attribute when they run to their
    end on the dictionary [d]. *)
Lemma imported_fields (path : string) (d : gmap string pyval) :
  let a := fold_left (band_step d) colors
             (fold_left (import_step d) LR_TAGS (new_adjustments (Some path))) in
  (forall tag attr, In (tag, attr) LR_TAGS -> attr <> "tone_curve" ->
     getattr a attr =
     match d !! tag with
     | Some v => Some v
     | None => getattr (new_adjustments (Some path)) attr
     end) /\
  tone_curve a = imported_curve d /\
  (forall color, In color colors ->
     hue_adjustments a !! lower color = d !! ("XMP:HueAdjustment" ++ color) /\
     saturation_adjustments a !! lower color
     = d !! ("XMP:SaturationAdjustment" ++ color) /\
     luminance_adjustments a !! lower color
     = d !! ("XMP:LuminanceAdjustment" ++ color)) /\
  source_file a = Some path.
Proof.
  intros a. subst a.
  pose proof (fold_band_frame d colors
                (fold_left (import_step d) LR_TAGS (new_adjustments (Some path))))
    as (Hattr & Htone & Hsf).
  pose proof (fold_import_frame d LR_TAGS (new_adjustments (Some path)))
    as (Hh & Hs & Hl & Hsf').
  split; [| split; [| split]].
  - intros tag attr Hin Hne. rewrite Hattr.
    apply fold_import_getattr; try assumption.
    apply NoDup_by_compute. vm_compute. reflexivity.
  - rewrite Htone. apply fold_import_tone. reflexivity.
  - intros color Hin.
    destruct (fold_band_maps d colors
                ltac:(apply NoDup_by_compute; vm_compute; reflexivity)
                (fold_left (import_step d) LR_TAGS (new_adjustments (Some path)))
                color Hin) as (-> & -> & ->).
    rewrite Hh, Hs, Hl. simpl. rewrite !lookup_empty.
    destruct (d !! ("XMP:HueAdjustment" ++ color));
      destruct (d !! ("XMP:SaturationAdjustment" ++ color));
      destruct (d !! ("XMP:LuminanceAdjustment" ++ color)); auto.
  - rewrite Hsf, Hsf'. reflexivity.
Qed.

(** A list one of whose items fails cannot be converted. *)
Lemma rmap_list_fails {A B} (f : A -> result B) (l : list A) (x : A) (e : exn) :
  In x l -> f x = Raise e -> exists e', rmap_list f l = Raise e'.
Proof.
  induction l as [| a r IH]; intros Hin Hx; [destruct Hin |].
  simpl. destruct (f a) as [b | e0] eqn:Ha; simpl; [| eauto].
  destruct Hin as [-> | Hin]; [congruence |].
  destruct (IH Hin Hx) as [e' ->]. simpl. eauto.
Qed.

(** The curve stored for a dictionary whose tone-curve value decodes
    without an exception, by the form of the value. *)
Lemma imported_curve_cases (d : gmap string pyval) :
  curve_decodes d ->
  (d !! "XMP:ToneCurvePV2012" = None -> imported_curve d = None) /\
  (forall s values,
     d !! "XMP:ToneCurvePV2012" = Some (VStr s) ->
     numeric_sequence s = Ok values ->
     imported_curve d = curve_of_values values) /\
  (forall s t,
     d !! "XMP:ToneCurvePV2012" = Some (VStr s) ->
     In t (split "," s) -> int_of_str (strip t) = None ->
     imported_curve d = None) /\
  (forall l values,
     d !! "XMP:ToneCurvePV2012" = Some (VList l) ->
     rmap_list int_of l = Ok values ->
     imported_curve d = curve_of_values values) /\
  (forall l v e,
     d !! "XMP:ToneCurvePV2012" = Some (VList l) ->
     In v l -> int_of v = Raise e ->
     imported_curve d = None) /\
  (forall v,
     d !! "XMP:ToneCurvePV2012" = Some v ->
     (forall s, v <> VStr s) -> (forall l, v <> VList l) ->
     imported_curve d = None).
Proof.
  intros Hdec. unfold imported_curve.
  split; [intros ->; reflexivity |]. split; [| split; [| split; [| split]]].
  - intros s values -> Hs. rewrite parse_string, Hs. reflexivity.
  - intros s t -> Hin Ht. rewrite parse_string.
    destruct (rmap_list_fails int_of_token (split "," s) t ValueError Hin)
      as [e' He'].
    { unfold int_of_token. rewrite Ht. reflexivity. }
    unfold numeric_sequence. rewrite He'. reflexivity.
  - intros l values Hl Hv. rewrite Hl. unfold _parse_tone_curve.
    destruct l as [| v0 r]; [simpl in *; injection Hv as <-; reflexivity |].
    simpl truthy. simpl negb. cbv iota. rewrite Hv. reflexivity.
  - intros l v e Hl Hin Hv. destruct (Hdec _ Hl) as [c Hc]. rewrite Hl, Hc.
    destruct (rmap_list_fails int_of l v e Hin Hv) as [e' He'].
    revert Hc. unfold _parse_tone_curve.
    destruct (negb (truthy (VList l))); [intros [= <-]; reflexivity |].
    rewrite He'. simpl rbind. destruct e'; congruence.
  - intros v -> Hs Hl. unfold _parse_tone_curve.
    destruct (negb (truthy v)); [reflexivity |].
    destruct v; try reflexivity; [exfalso; eapply Hs | exfalso; eapply Hl];
      reflexivity.
Qed.



(** The exception that escapes the decoder ends the extraction: the tags
    read before are kept, the later ones and the colour bands are not
    read. *)
Lemma extract_aborted_by_infinite_item :
  exists a,
    extract (tool_returning infinite_item_tags) "photo.jpg"
    = mkExtraction (Ok a) (Some OverflowError) /\
    exposure a = VInt 1 /\ hue_adjustments a !! "red" = None.
Proof. eexists. split; [vm_compute; reflexivity |]. split; reflexivity. Qed.

(** C5 as stated fails on one field: the source file is set before the
    tool is called. *)
Lemma extract_failure_keeps_source_file :
  exists a,
    returned (extract failing_tool "photo.jpg") = Ok a /\
    source_file a = Some "photo.jpg" /\ source_file a <> None.
Proof. eexists. split; [reflexivity |]. split; [reflexivity | discriminate]. Qed.

(** C5, as the code has it: when the tool raises, or returns a value that
    is false (nothing, an empty list, an empty dictionary), [extract]
    returns the adjustments as they were built, every field null and the
    three mappings empty, except the source file, which holds the path;
    the exception is printed, not raised; and whatever the tool does,
    [extract] returns a value. *)
Theorem extract_tool_failure (get_metadata : string -> result pyval)
    (path : string) :
  (forall e, get_metadata path = Raise e ->
     extract get_metadata path
     = mkExtraction (Ok (new_adjustments (Some path))) (Some e)) /\
  (forall m, get_metadata path = Ok m -> truthy m = false ->
     extract get_metadata path
     = mkExtraction (Ok (new_adjustments (Some path))) None) /\
  (exists a, returned (extract get_metadata path) = Ok a) /\
  Forall (fun v => v = VNone)
    (basic_adjustments (new_adjustments (Some path)) ++
     [luminance_noise_reduction (new_adjustments (Some path));
      color_noise_reduction (new_adjustments (Some path));
      vignette_amount (new_adjustments (Some path));
      grain_amount (new_adjustments (Some path))])%list /\
  tone_curve (new_adjustments (Some path)) = None /\
  band_maps (new_adjustments (Some path)) = (∅, ∅, ∅) /\
  source_file (new_adjustments (Some path)) = Some path.
Proof.
  split; [| split; [| split]].
  - intros e He. unfold extract. rewrite He. reflexivity.
  - intros m Hm Hfalse. unfold extract. rewrite Hm, Hfalse. reflexivity.
  - unfold extract. destruct (get_metadata path) as [m | e]; [| simpl; eauto].
    destruct (negb (truthy m)); [simpl; eauto |].
    destruct ((let* _ := import_tags _ in _extract_hsl_adjustments _) _)
      as [[u | e] a]; simpl; eauto.
  - repeat split; repeat constructor.
Qed.

Lemma extract_tool_failure_witness :
  extract failing_tool "photo.jpg"
  = mkExtraction (Ok (new_adjustments (Some "photo.jpg")))
                 (Some (ToolError "exiftool not found")) /\
  extract (fun _ => Ok (VList [])) "photo.jpg"
  = mkExtraction (Ok (new_adjustments (Some "photo.jpg"))) None.
Proof.
  destruct (extract_tool_failure failing_tool "photo.jpg") as (H1 & _).
  destruct (extract_tool_failure (fun _ => Ok (VList [])) "photo.jpg")
    as (_ & H2 & _).
  split; [apply H1; reflexivity | apply (H2 (VList [])); reflexivity].
Defined.

End ImportFacts.

(** *** The exporter *)
Module ExportFacts.
Import Py Models Metadata Xmp TextDefs CodecDefs ImportDefs ExportDefs TextFacts CodecFacts ImportFacts Samples.

(** **** The text of a number *)

Lemma fixed_two_digits (ds : string) (d1 d2 : ascii) :
  forall seen,
    all_chars is_digit ds = true ->
    ds <> EmptyString \/ seen = true ->
    is_digit d1 = true -> is_digit d2 = true ->
    fixed_two (ds ++ "." ++ String d1 (String d2 EmptyString)) seen = true.
Proof.
  induction ds as [| c r IH]; intros seen Hall Hne Hd1 Hd2.
  - destruct Hne as [Hne | ->]; [congruence |].
    rewrite append_nil. simpl. rewrite Hd1, Hd2. reflexivity.
  - simpl in Hall. apply andb_true_iff in Hall as [Hc Hr].
    rewrite append_cons. simpl. rewrite Hc. apply IH; auto.
Qed.

Lemma hundredths_nonneg (m : positive) (e : Z) : 0 <= hundredths m e.
Proof.
  unfold hundredths. destruct (Z.leb_spec 0 e) as [He | He].
  - pose proof (Z.pow_nonneg 2 e). nia.
  - assert (0 < 2 ^ (- e)) as Hd by (apply Z.pow_pos_nonneg; lia).
    assert (0 <= Z.pos m * 100 / 2 ^ (- e)) as Hq by (apply Z.div_pos; lia).
    destruct (_ <? _); [lia |]. destruct (_ <? _); [lia |].
    destruct (Z.even _); lia.
Qed.

(** The digits printed are those of the nearest multiple of 1/100: twice
    the distance to the exact value is at most 1/100. *)
Lemma hundredths_nearest (m : positive) (e : Z) :
  e < 0 ->
  Z.abs (2 * (Z.pos m * 100) - 2 * hundredths m e * 2 ^ (- e)) <= 2 ^ (- e).
Proof.
  intros He. unfold hundredths.
  destruct (Z.leb_spec 0 e) as [? | _]; [lia |].
  assert (0 < 2 ^ (- e)) as Hd by (apply Z.pow_pos_nonneg; lia).
  pose proof (Z.div_mod (Z.pos m * 100) (2 ^ (- e)) ltac:(lia)) as Hdm.
  pose proof (Z.mod_pos_bound (Z.pos m * 100) (2 ^ (- e)) Hd) as Hr.
  destruct (Z.ltb_spec (2 * ((Z.pos m * 100) mod 2 ^ (- e))) (2 ^ (- e))); [nia |].
  destruct (Z.ltb_spec (2 ^ (- e)) (2 * ((Z.pos m * 100) mod 2 ^ (- e)))); [nia |].
  destruct (Z.even _); nia.
Qed.

(** On a tie the digit printed is even. *)
Lemma hundredths_tie_even (m : positive) (e : Z) :
  e < 0 ->
  Z.abs (2 * (Z.pos m * 100) - 2 * hundredths m e * 2 ^ (- e)) = 2 ^ (- e) ->
  Z.even (hundredths m e) = true.
Proof.
  intros He. unfold hundredths.
  destruct (Z.leb_spec 0 e) as [? | _]; [lia |].
  assert (0 < 2 ^ (- e)) as Hd by (apply Z.pow_pos_nonneg; lia).
  pose proof (Z.div_mod (Z.pos m * 100) (2 ^ (- e)) ltac:(lia)) as Hdm.
  pose proof (Z.mod_pos_bound (Z.pos m * 100) (2 ^ (- e)) Hd) as Hr.
  destruct (Z.ltb_spec (2 * ((Z.pos m * 100) mod 2 ^ (- e))) (2 ^ (- e))); [nia |].
  destruct (Z.ltb_spec (2 ^ (- e)) (2 * ((Z.pos m * 100) mod 2 ^ (- e)))); [nia |].
  intros _. destruct (Z.even (Z.pos m * 100 / 2 ^ (- e))) eqn:Hev; [exact Hev |].
  rewrite Z.even_add, Hev. reflexivity.
Qed.

Lemma fixed2_shape (h : Z) : 0 <= h -> fixed_two (fixed2 h) false = true.
Proof.
  intros Hh. unfold fixed2, two_digits.
  assert (0 <= h / 100) as Hq by (apply Z.div_pos; lia).
  pose proof (Z.mod_pos_bound h 100 ltac:(lia)) as Hr.
  apply fixed_two_digits.
  - apply str_nonneg_digits; exact Hq.
  - left. apply str_nonneg_nonempty; exact Hq.
  - apply is_digit_digit_char.
    assert (0 <= h mod 100 / 10) by (apply Z.div_pos; lia).
    assert (h mod 100 / 10 < 10) by (apply Z.div_lt_upper_bound; lia).
    lia.
  - apply is_digit_digit_char. pose proof (Z.mod_pos_bound (h mod 100) 10). lia.
Qed.

Lemma plain_decimal_digit_first (c : ascii) (r : string) :
  is_digit c = true ->
  plain_decimal (String c r) = all_chars is_digit (String c r).
Proof.
  intros Hc.
  destruct c as [[] [] [] [] [] [] [] []]; try discriminate Hc;
    unfold plain_decimal; simpl String.eqb; rewrite andb_true_r; reflexivity.
Qed.

Section Repr.
Variable repr_other : pyval -> string.

(** The text of a finite float: the sign of its sign bit, then the
    fixed-point digits. *)
Lemma format_value_finite (f : spec_float) :
  is_finite f = true ->
  exists body,
    format_value repr_other (VFloat f)
    = String (if sign_bit f then "-" else "+")%char body /\
    fixed_two body false = true.
Proof.
  destruct f as [s | s | | s m e]; try discriminate; intros _.
  - exists "0.00". split; [destruct s; reflexivity | reflexivity].
  - exists (fixed2 (hundredths m e)). split.
    + destruct s; reflexivity.
    + apply fixed2_shape, hundredths_nonneg.
Qed.

Lemma format_value_int (z : Z) :
  format_value repr_other (VInt z) = str_int z /\
  plain_decimal (str_int z) = true /\
  int_of_str (str_int z) = Some z /\
  (z < 0 <-> exists r, str_int z = String "-" r) /\
  (forall r, str_int z <> String "+" r).
Proof.
  split; [reflexivity |]. split; [| split; [apply int_of_str_str_int |]].
  - unfold str_int. destruct (Z.ltb_spec z 0) as [Hz | Hz].
    + unfold plain_decimal. rewrite str_nonneg_digits by lia. simpl.
      apply negb_true_iff, String.eqb_neq, str_nonneg_nonempty. lia.
    + pose proof (str_nonneg_digits z Hz) as Hd.
      pose proof (str_nonneg_nonempty z Hz) as Hne.
      destruct (str_nonneg z) as [| c r] eqn:Hs; [congruence |].
      assert (is_digit c = true) as Hc
        by (simpl in Hd; apply andb_true_iff in Hd; tauto).
      rewrite plain_decimal_digit_first by exact Hc. exact Hd.
  - pose proof (str_int_num_chars z) as Hn.
    unfold str_int in *. destruct (Z.ltb_spec z 0) as [Hz | Hz]; split.
    + split; [eauto | intros _; exact Hz].
    + discriminate.
    + split; [lia |]. intros [r Hr].
      pose proof (str_nonneg_digits z Hz) as Hd. rewrite Hr in Hd.
      discriminate Hd.
    + intros r Hr. pose proof (str_nonneg_digits z Hz) as Hd.
      rewrite Hr in Hd. discriminate Hd.
Qed.

(** **** The attributes written *)

Lemma scalar_fold_other (l : list (string * (string * pyval))) (tag : string) :
  ~ In tag (map tag_of l) ->
  forall base, fold_left (scalar_step repr_other) l base !! tag = base !! tag.
Proof.
  induction l as [| [key [t v]] rest IH]; intros Hnot base; [reflexivity |].
  simpl in Hnot. rewrite fold_left_step, IH by tauto.
  unfold scalar_step. destruct (negb (is_none v)); [| reflexivity].
  apply lookup_insert_ne. unfold tag_of in Hnot. simpl in Hnot. tauto.
Qed.

Lemma scalar_fold_lookup (l : list (string * (string * pyval))) :
  List.NoDup (map tag_of l) ->
  forall base key tag v,
    In (key, (tag, v)) l ->
    fold_left (scalar_step repr_other) l base !! tag =
    if is_none v then base !! tag else Some (format_value repr_other v).
Proof.
  induction l as [| [k0 [t0 v0]] rest IH]; intros Hnd base key tag v Hin;
    [destruct Hin |].
  simpl in Hnd. apply List.NoDup_cons_iff in Hnd as [Ht0 Hnd].
  rewrite fold_left_step. destruct Hin as [[= -> -> ->] | Hin].
  - rewrite scalar_fold_other by exact Ht0.
    unfold scalar_step. destruct (is_none v); [reflexivity |].
    apply lookup_insert_eq.
  - rewrite (IH Hnd _ key tag v Hin).
    destruct (is_none v); [| reflexivity].
    unfold scalar_step. destruct (negb (is_none v0)); [| reflexivity].
    apply lookup_insert_ne. intros ->. apply Ht0.
    apply (in_map tag_of) in Hin. exact Hin.
Qed.

Lemma add_band_other (kind color tag : string) (band : gmap string pyval)
    (attribs : gmap string string) :
  tag <> qname NS_crs (kind ++ color) ->
  add_band repr_other kind color band attribs !! tag = attribs !! tag.
Proof.
  intros Hne. unfold add_band. destruct (band !! lower color); [| reflexivity].
  apply lookup_insert_ne. congruence.
Qed.

Lemma hsl_other (adjustments : LightroomAdjustments) (tag : string) :
  ~ In tag band_tags ->
  forall attribs,
    _add_hsl_adjustments repr_other attribs adjustments !! tag = attribs !! tag.
Proof.
  unfold _add_hsl_adjustments, band_tags.
  generalize colors as cs.
  induction cs as [| c rest IH]; intros Hnot attribs; [reflexivity |].
  change (flat_map band_tags_of (c :: rest))
    with (band_tags_of c ++ flat_map band_tags_of rest)%list in Hnot.
  rewrite in_app_iff in Hnot.
  rewrite fold_left_step, IH by tauto.
  assert (~ In tag (band_tags_of c)) as Hc by tauto.
  unfold band_tags_of in Hc. simpl In in Hc.
  rewrite !add_band_other by (intros ->; tauto). reflexivity.
Qed.

Lemma description_attrib (adjustments : LightroomAdjustments) :
  el_attrib (description_element repr_other adjustments)
  = _add_adjustments_to_attribs repr_other adjustments base_attribs.
Proof.
  unfold description_element. destruct (tone_curve adjustments) as [c |];
    [destruct (points c) |]; reflexivity.
Qed.

Lemma mappings_tags (adjustments : LightroomAdjustments) :
  map tag_of (mappings adjustments) = SCALAR_TAGS.
Proof. reflexivity. Qed.

Lemma scalar_tags_fresh (tag : string) :
  In tag SCALAR_TAGS -> ~ In tag band_tags /\ base_attribs !! tag = None.
Proof.
  assert (forallb (fun t =>
             forallb (fun b => negb (String.eqb b t)) band_tags &&
             bool_decide (base_attribs !! t = None)) SCALAR_TAGS = true) as Hall
    by (vm_compute; reflexivity).
  rewrite forallb_forall in Hall. intros Hin.
  specialize (Hall tag Hin). apply andb_true_iff in Hall as [Hb Hbase].
  split; [apply not_in_names; exact Hb |].
  apply bool_decide_eq_true in Hbase. exact Hbase.
Qed.

(** The attribute written for a scalar field: none for a null value,
    the formatted value otherwise. *)
Lemma exported_scalar (adjustments : LightroomAdjustments)
    (key tag : string) (v : pyval) :
  In (key, (tag, v)) (mappings adjustments) ->
  el_attrib (description_element repr_other adjustments) !! tag =
  if is_none v then None else Some (format_value repr_other v).
Proof.
  intros Hin. rewrite description_attrib. unfold _add_adjustments_to_attribs.
  assert (In tag SCALAR_TAGS) as Htag.
  { rewrite <- (mappings_tags adjustments).
    apply (in_map tag_of) in Hin. exact Hin. }
  destruct (scalar_tags_fresh tag Htag) as [Hband Hbase].
  rewrite hsl_other by exact Hband.
  change (fold_left _ (mappings adjustments) base_attribs)
    with (fold_left (scalar_step repr_other) (mappings adjustments) base_attribs).
  rewrite (scalar_fold_lookup (mappings adjustments)) with (key := key) (v := v).
  - rewrite Hbase. reflexivity.
  - rewrite mappings_tags. apply NoDup_by_compute. vm_compute. reflexivity.
  - exact Hin.
Qed.

(** **** The claim on the number format *)


End Repr.


(** The example of the specification. *)
Lemma export_example :
  el_attrib (description_element repr_blank exposure_contrast)
    !! qname NS_crs "Exposure2012" = Some "+1.50" /\
  el_attrib (description_element repr_blank exposure_contrast)
    !! qname NS_crs "Contrast2012" = Some "-20".
Proof. split; vm_compute; reflexivity. Qed.


(** Negative zero is not negative, so it takes the format that forces a
    sign, and the sign that this format prints is the sign bit. *)
Lemma export_negative_zero :
  float_ge0 (S754_zero true) = true /\
  el_attrib (description_element repr_blank (exposure_only (S754_zero true)))
    !! qname NS_crs "Exposure2012" = Some "-0.00".
Proof. split; vm_compute; reflexivity. Qed.

End ExportFacts.

(** *** Export, then import *)
Module RoundTripFacts.
Import Py Models Metadata Xmp TextDefs CodecDefs ImportDefs ExportDefs RoundTripDefs.
Import TextFacts CodecFacts ImportFacts ExportFacts Samples.

(** **** The exported element read as a flat tag mapping *)

Lemma strip_prefix_app (p l : string) : strip_prefix p (p ++ l) = Some l.
Proof.
  induction p as [| a p IH]; [reflexivity |].
  rewrite append_cons. simpl. rewrite Ascii.eqb_refl. exact IH.
Qed.

Lemma strip_prefix_some (p s l : string) :
  strip_prefix p s = Some l -> s = p ++ l.
Proof.
  revert s. induction p as [| a p IH]; intros s H.
  - injection H as <-. reflexivity.
  - destruct s as [| b s]; [discriminate |]. simpl in H.
    destruct (Ascii.eqb_spec a b) as [<- | _]; [| discriminate].
    rewrite append_cons. f_equal. apply IH. exact H.
Qed.

Lemma append_inj_l (p a b : string) : p ++ a = p ++ b -> a = b.
Proof.
  induction p as [| c p IH]; rewrite ?append_nil, ?append_cons; [auto |].
  intros [= H]. auto.
Qed.

Lemma attribute_tags_lookup (attribs : gmap string string) (local : string) :
  attribute_tags attribs !! ("XMP:" ++ local)
  = VStr <$> attribs !! (CRS_PREFIX ++ local).
Proof.
  unfold attribute_tags.
  apply (map_fold_weak_ind
           (fun (r : gmap string pyval) (m : gmap string string) =>
              r !! ("XMP:" ++ local) = VStr <$> m !! (CRS_PREFIX ++ local))).
  - rewrite !lookup_empty. reflexivity.
  - intros k v m r Hk IH.
    destruct (strip_prefix CRS_PREFIX k) as [l |] eqn:Hl.
    + apply strip_prefix_some in Hl. subst k.
      destruct (decide (l = local)) as [-> | Hne].
      * rewrite !lookup_insert_eq. reflexivity.
      * rewrite !lookup_insert_ne; [exact IH | |].
        -- intros H. apply append_inj_l in H. congruence.
        -- intros H. apply append_inj_l in H. congruence.
    + rewrite lookup_insert_ne; [exact IH |].
      intros ->. rewrite strip_prefix_app in Hl. discriminate.
Qed.

(** **** The two tag tables *)

(** The exporter and the importer use the same local names for the same
    scalar attributes, under their own prefixes. *)
Lemma tag_tables_agree (repr_other : pyval -> string) (x : LightroomAdjustments) :
  map (fun e => (fst e, fst (snd e))) (mappings x)
  = map (fun '(key, local) => (key, CRS_PREFIX ++ local)) SCALAR_NAMES /\
  firstn 18 LR_TAGS
  = map (fun '(key, local) => ("XMP:" ++ local, key)) SCALAR_NAMES.
Proof. split; reflexivity. Qed.

Lemma scalar_name (x : LightroomAdjustments) (key tag : string) (v : pyval) :
  In (key, (tag, v)) (mappings x) ->
  exists local,
    tag = CRS_PREFIX ++ local /\
    In ("XMP:" ++ local, key) LR_TAGS /\
    key <> "tone_curve" /\
    "XMP:" ++ local <> "XMP:ToneCurvePV2012" /\
    forall sf, getattr (new_adjustments sf) key = Some VNone.
Proof.
  intros Hin. unfold mappings in Hin.
  repeat (destruct Hin as [Hin | Hin];
          [injection Hin as <- <- _; eexists; split; [reflexivity |];
           split; [unfold LR_TAGS; simpl; tauto |];
           split; [discriminate |]; split; [discriminate |];
           intros sf; reflexivity |]).
  destruct Hin.
Qed.

(** **** The curve items do not decode *)

Lemma int_digits_stops (ds r : string) :
  forall acc seen,
    all_chars is_digit ds = true ->
    int_digits (ds ++ String "," r) acc seen = None.
Proof.
  induction ds as [| c ds IH]; intros acc seen Hall.
  - reflexivity.
  - simpl in Hall. apply andb_true_iff in Hall as [Hc Hds].
    rewrite append_cons. simpl. rewrite Hc. apply IH. exact Hds.
Qed.

Lemma int_signed_stops (z : Z) (r : string) :
  int_signed (str_int z ++ String "," r) = None.
Proof.
  unfold str_int. destruct (Z.ltb_spec z 0) as [Hz | Hz].
  - rewrite append_cons. simpl.
    rewrite int_digits_stops by (apply str_nonneg_digits; lia). reflexivity.
  - pose proof (str_nonneg_digits z Hz) as Hd.
    pose proof (str_nonneg_nonempty z Hz) as Hne.
    pose proof (int_digits_stops (str_nonneg z) r 0 false Hd) as Hstop.
    destruct (str_nonneg z) as [| c ds]; [congruence |].
    simpl in Hd. apply andb_true_iff in Hd as [Hc _].
    rewrite append_cons in *. rewrite int_signed_digit_first by exact Hc.
    exact Hstop.
Qed.

Lemma rstrip_with_app (sp : ascii -> bool) (a t : string) :
  rstrip_with sp t <> EmptyString ->
  rstrip_with sp (a ++ t) = a ++ rstrip_with sp t.
Proof.
  intros Ht. induction a as [| c a IH]; [reflexivity |].
  rewrite !append_cons. simpl. rewrite IH.
  destruct (a ++ rstrip_with sp t) eqn:Heq; [| reflexivity].
  destruct a; [rewrite append_nil in Heq; congruence |].
  rewrite append_cons in Heq. discriminate.
Qed.

Lemma rstrip_with_comma (sp : ascii -> bool) (r : string) :
  sp ","%char = false ->
  exists r', rstrip_with sp (String "," r) = String "," r'.
Proof.
  intros Hsp. simpl. rewrite Hsp. destruct (rstrip_with sp r); eauto.
Qed.

(** The text of a curve item, two ints around a comma, is no int. *)
Lemma int_of_item (x y : Z) :
  int_of (VStr (str_int x ++ ", " ++ str_int y)) = Raise ValueError.
Proof.
  simpl. unfold int_of_str, strip_with.
  pose proof (str_int_nonempty x) as Hne.
  pose proof (proj2 (str_int_no_space x)) as Hsp.
  assert (lstrip_with is_c_space (str_int x ++ ", " ++ str_int y)
          = str_int x ++ ", " ++ str_int y) as ->.
  { destruct (str_int x) as [| c r]; [congruence |].
    simpl in Hsp. apply andb_true_iff in Hsp as [Hc _].
    apply negb_true_iff in Hc. rewrite append_cons.
    apply lstrip_with_head. exact Hc. }
  change (", " ++ str_int y) with (String "," (" " ++ str_int y)).
  destruct (rstrip_with_comma is_c_space (" " ++ str_int y) eq_refl) as [r' Hr'].
  rewrite rstrip_with_app by (rewrite Hr'; discriminate).
  rewrite Hr', int_signed_stops. reflexivity.
Qed.

Lemma rmap_list_first_raise {A B} (f : A -> result B) (a : A) (r : list A)
    (e : exn) :
  f a = Raise e -> rmap_list f (a :: r) = Raise e.
Proof. intros H. simpl. rewrite H. reflexivity. Qed.

Lemma parse_items (pts : list (Z * Z)) :
  _parse_tone_curve (VList (map item_text pts)) = Ok None.
Proof.
  destruct pts as [| [x y] rest]; [reflexivity |].
  unfold _parse_tone_curve.
  change (truthy (VList (map item_text ((x, y) :: rest)))) with true.
  change (map item_text ((x, y) :: rest))
    with (item_text (x, y) :: map item_text rest).
  rewrite (rmap_list_first_raise int_of _ _ ValueError (int_of_item x y)).
  reflexivity.
Qed.

(** **** The exported mapping *)

Section Repr.
Variable repr_other : pyval -> string.

Lemma omap_cons_some {A B} (f : A -> option B) (a : A) (l : list A) (b : B) :
  f a = Some b -> omap f (a :: l) = b :: omap f l.
Proof. intros H. simpl. rewrite H. reflexivity. Qed.

Lemma li_texts_items (pts : list (Z * Z)) :
  omap (fun li => VStr <$> el_text li)
       (map (fun '(x, y) =>
               mkElement (qname NS_rdf "li") ∅
                         (Some (str_int x ++ ", " ++ str_int y)) []) pts)
  = map item_text pts.
Proof.
  induction pts as [| [x y] rest IH]; [reflexivity |].
  rewrite map_cons.
  rewrite (omap_cons_some _ _ _ (item_text (x, y))) by reflexivity.
  rewrite IH. reflexivity.
Qed.

(** The curve element is there exactly for a curve with points, and
    its items are the texts ["x, y"]. *)
Lemma description_curve_tag (x : LightroomAdjustments) :
  curve_tag (description_element repr_other x) =
  match tone_curve x with
  | Some c => match points c with
              | [] => None
              | pts => Some (VList (map item_text pts))
              end
  | None => None
  end.
Proof.
  unfold description_element.
  destruct (tone_curve x) as [c |]; [| reflexivity].
  destruct (points c) as [| p rest] eqn:Hp; [reflexivity |].
  unfold _add_tone_curve_element, curve_tag, SubElement. simpl el_children.
  rewrite filter_cons_True by reflexivity.
  simpl el_children. unfold li_texts. simpl el_children.
  rewrite Hp, li_texts_items. reflexivity.
Qed.

Lemma exported_lookup_scalar (desc : Element) (local : string) :
  "XMP:" ++ local <> "XMP:ToneCurvePV2012" ->
  exported_tags desc !! ("XMP:" ++ local)
  = VStr <$> el_attrib desc !! (CRS_PREFIX ++ local).
Proof.
  intros Hne. unfold exported_tags. destruct (curve_tag desc).
  - rewrite lookup_insert_ne by congruence. apply attribute_tags_lookup.
  - apply attribute_tags_lookup.
Qed.

Lemma no_curve_attribute (x : LightroomAdjustments) :
  el_attrib (description_element repr_other x)
    !! (CRS_PREFIX ++ "ToneCurvePV2012") = None.
Proof.
  rewrite description_attrib. unfold _add_adjustments_to_attribs.
  rewrite hsl_other by (apply not_in_names; vm_compute; reflexivity).
  change (fold_left _ (mappings x) (base_attribs))
    with (fold_left (scalar_step repr_other) (mappings x) base_attribs).
  rewrite scalar_fold_other; [reflexivity |].
  rewrite mappings_tags. apply not_in_names. vm_compute. reflexivity.
Qed.

Lemma exported_lookup_curve (x : LightroomAdjustments) :
  exported_tags (description_element repr_other x) !! "XMP:ToneCurvePV2012"
  = curve_tag (description_element repr_other x).
Proof.
  unfold exported_tags.
  destruct (curve_tag (description_element repr_other x)) as [v |].
  - apply lookup_insert_eq.
  - change "XMP:ToneCurvePV2012" with ("XMP:" ++ "ToneCurvePV2012").
    rewrite attribute_tags_lookup, no_curve_attribute. reflexivity.
Qed.

Lemma exported_curve_decodes (x : LightroomAdjustments) :
  curve_decodes (exported_tags (description_element repr_other x)) /\
  imported_curve (exported_tags (description_element repr_other x)) = None.
Proof.
  unfold curve_decodes, imported_curve.
  rewrite exported_lookup_curve, description_curve_tag.
  destruct (tone_curve x) as [c |]; [| split; [discriminate | reflexivity]].
  destruct (points c) as [| p rest]; [split; [discriminate | reflexivity] |].
  split.
  - intros v [= <-]. eexists. apply (parse_items (p :: rest)).
  - rewrite (parse_items (p :: rest)). reflexivity.
Qed.

(** **** The claim on the round trip *)


End Repr.



End RoundTripFacts.

(** *** The tone-curve preview *)
Module WidgetFacts.
Import Py Models Widgets PreviewDefs Samples.

Lemma list_get_in {A} (l : list A) (i : Z) :
  0 <= i < Z.of_nat (length l) ->
  exists a, l !! Z.to_nat i = Some a /\ list_get l i = Ok a.
Proof.
  intros Hi. unfold list_get.
  destruct (Z.ltb_spec i 0) as [? | _]; [lia |].
  destruct (Z.leb_spec 0 i) as [_ | ?]; [| lia].
  destruct (Z.ltb_spec i (Z.of_nat (length l))) as [_ | ?]; [| lia].
  simpl. destruct (lookup_lt_is_Some_2 l (Z.to_nat i)) as [a Ha]; [lia |].
  exists a. rewrite Ha. split; reflexivity.
Qed.

Lemma list_set_in {A} (l : list A) (i : Z) (a : A) :
  0 <= i < Z.of_nat (length l) ->
  list_set l i a = Ok (<[Z.to_nat i := a]> l).
Proof.
  intros Hi. unfold list_set.
  destruct (Z.ltb_spec i 0) as [? | _]; [lia |].
  destruct (Z.leb_spec 0 i) as [_ | ?]; [| lia].
  destruct (Z.ltb_spec i (Z.of_nat (length l))) as [_ | ?]; [| lia].
  reflexivity.
Qed.

Lemma rect_row (h w : nat) (g : Grid) (r : nat) (row : list string) :
  rect h w g -> g !! r = Some row -> length row = w.
Proof.
  intros [_ Hrows] Hr. rewrite Forall_forall in Hrows.
  apply Hrows. eapply list_elem_of_lookup_2. exact Hr.
Qed.

Lemma rect_insert (h w : nat) (g : Grid) (r : nat) (row : list string) :
  rect h w g -> length row = w -> rect h w (<[r := row]> g).
Proof.
  intros [Hlen Hrows] Hrow. split.
  - rewrite length_insert. exact Hlen.
  - apply Forall_insert; assumption.
Qed.

Lemma grid_get_in (h w : nat) (g : Grid) (x y : Z) :
  rect h w g -> in_grid h w x y ->
  exists row v,
    g !! Z.to_nat y = Some row /\ row !! Z.to_nat x = Some v /\
    length row = w /\ grid_get g y x = Ok v.
Proof.
  intros Hrect [Hy Hx]. pose proof Hrect as [Hlen _].
  destruct (list_get_in g y) as (row & Hrow & Hget); [lia |].
  pose proof (rect_row _ _ _ _ _ Hrect Hrow) as Hw.
  destruct (list_get_in row x) as (v & Hv & Hgetv); [lia |].
  exists row, v. unfold grid_get. rewrite Hget. simpl. auto.
Qed.

Lemma grid_set_in (h w : nat) (g : Grid) (x y : Z) (row : list string) (a : string) :
  rect h w g -> in_grid h w x y ->
  g !! Z.to_nat y = Some row ->
  grid_set g y x a = Ok (<[Z.to_nat y := <[Z.to_nat x := a]> row]> g).
Proof.
  intros Hrect [Hy Hx] Hrow. pose proof Hrect as [Hlen _].
  pose proof (rect_row _ _ _ _ _ Hrect Hrow) as Hw.
  destruct (list_get_in g y) as (row' & Hrow' & Hget); [lia |].
  assert (row' = row) as -> by congruence.
  unfold grid_set. rewrite Hget. simpl.
  rewrite list_set_in by lia. simpl.
  rewrite list_set_in by lia. reflexivity.
Qed.

Lemma marks_refl (P : Z -> Z -> Prop) (g : Grid) : marks P g g.
Proof. intros r c H. congruence. Qed.

Lemma marks_trans (P : Z -> Z -> Prop) (g1 g2 g3 : Grid) :
  marks P g1 g2 -> marks P g2 g3 -> marks P g1 g3.
Proof.
  intros H12 H23 r c Hdiff.
  destruct (decide (cell g3 r c = cell g2 r c)) as [Heq | Hne].
  - rewrite Heq in *. apply H12. exact Hdiff.
  - destruct (H23 r c Hne) as (Hdot & Hold & HP).
    split; [exact Hdot |]. split; [| exact HP].
    destruct (decide (cell g2 r c = cell g1 r c)) as [Heq | Hne'].
    + rewrite <- Heq. exact Hold.
    + destruct (H12 r c Hne') as (Hdot2 & _ & _).
      rewrite Hdot2 in Hold. destruct Hold as [Hold | Hold]; discriminate Hold.
Qed.

Lemma marks_weaken (P Q : Z -> Z -> Prop) (g g' : Grid) :
  (forall x y, P x y -> Q x y) -> marks P g g' -> marks Q g g'.
Proof.
  intros HPQ Hm r c Hdiff. destruct (Hm r c Hdiff) as (? & ? & ?). auto.
Qed.

Lemma drawn_marks (P : Z -> Z -> Prop) (h w : nat) (g g1 g' : Grid) (x y : Z) :
  drawn h w g g1 x y -> marks P g1 g' -> drawn h w g g' x y.
Proof.
  intros Hd Hm Hin Hold. specialize (Hd Hin Hold).
  destruct (decide (cell g' (Z.to_nat y) (Z.to_nat x)
                    = cell g1 (Z.to_nat y) (Z.to_nat x))) as [Heq | Hne].
  - rewrite Heq. exact Hd.
  - apply (Hm _ _ Hne).
Qed.

Lemma marks_drawn (P : Z -> Z -> Prop) (h w : nat) (g g1 g' : Grid) (x y : Z) :
  marks P g g1 -> drawn h w g1 g' x y -> drawn h w g g' x y.
Proof.
  intros Hm Hd Hin Hold. apply (Hd Hin).
  destruct (decide (cell g1 (Z.to_nat y) (Z.to_nat x)
                    = cell g (Z.to_nat y) (Z.to_nat x))) as [Heq | Hne].
  - rewrite Heq. exact Hold.
  - right. right. apply (Hm _ _ Hne).
Qed.

(** One pass through [plot] on a rectangular grid: no exception, same
    shape, the plotted cell is drawn and no other cell changes. *)
Lemma plot_rect (h w : nat) (g : Grid) (x y : Z) :
  rect h w g ->
  exists g', plot g x y (Z.of_nat h) (Z.of_nat w) = Ok g' /\ rect h w g' /\
    marks (fun cx cy => cx = x /\ cy = y) g g' /\ drawn h w g g' x y.
Proof.
  intros Hrect. unfold plot.
  destruct ((0 <=? y) && (y <? Z.of_nat h) && ((0 <=? x) && (x <? Z.of_nat w)))
    eqn:Hin.
  2:{ exists g. split; [reflexivity |]. split; [exact Hrect |].
      split; [apply marks_refl |]. intros [Hy Hx].
      rewrite !andb_false_iff, !Z.leb_gt, !Z.ltb_ge in Hin. lia. }
  rewrite !andb_true_iff, !Z.leb_le, !Z.ltb_lt in Hin.
  assert (in_grid h w x y) as Hg by (unfold in_grid; lia).
  destruct (grid_get_in h w g x y Hrect Hg) as (row & v & Hrow & Hv & Hw & Hget).
  rewrite Hget. simpl.
  assert (cell g (Z.to_nat y) (Z.to_nat x) = Some v) as Hcell
    by (unfold cell; rewrite Hrow; exact Hv).
  destruct (String.eqb v BLANK || String.eqb v HBAR) eqn:Hv'.
  2:{ exists g. split; [reflexivity |]. split; [exact Hrect |].
      split; [apply marks_refl |]. intros _ Hold. rewrite Hcell in *.
      apply orb_false_iff in Hv' as [Hb Hh].
      apply String.eqb_neq in Hb, Hh.
      destruct Hold as [Hold | [Hold | Hold]]; congruence. }
  rewrite (grid_set_in h w g x y row DOT Hrect Hg Hrow).
  eexists. split; [reflexivity |]. destruct Hrect as [Hlen Hrows].
  split; [| split].
  - apply rect_insert; [split; assumption |]. rewrite length_insert. exact Hw.
  - intros r c Hdiff. unfold cell in Hdiff |- *.
    destruct (Nat.eq_dec r (Z.to_nat y)) as [-> | Hr].
    + rewrite list_lookup_insert_eq in * by lia. rewrite Hrow in *.
      destruct (Nat.eq_dec c (Z.to_nat x)) as [-> | Hc].
      * rewrite list_lookup_insert_eq in * by lia. rewrite Hv.
        apply orb_true_iff in Hv' as [Hb | Hh];
          [apply String.eqb_eq in Hb | apply String.eqb_eq in Hh]; subst v;
          (split; [reflexivity |]; split; [auto | lia]).
      * rewrite list_lookup_insert_ne in Hdiff by lia. congruence.
    + rewrite list_lookup_insert_ne in Hdiff by lia. congruence.
  - intros _ _. unfold cell.
    rewrite list_lookup_insert_eq by lia.
    rewrite list_lookup_insert_eq by lia. reflexivity.
Qed.

(** A cell outside the grid is skipped: nothing is written. *)
Lemma plot_outside (g : Grid) (x y hh ww : Z) :
  ~ (0 <= y < hh /\ 0 <= x < ww) -> plot g x y hh ww = Ok g.
Proof.
  intros Hout. unfold plot.
  destruct ((0 <=? y) && (y <? hh) && ((0 <=? x) && (x <? ww))) eqn:Hin;
    [| reflexivity].
  rewrite !andb_true_iff, !Z.leb_le, !Z.ltb_lt in Hin. tauto.
Qed.

Lemma on_line_start (x1 y1 x2 y2 : Z) :
  on_line x1 y1 x2 y2 x1 y1 (Z.abs (x2 - x1) - Z.abs (y2 - y1)) 0 0.
Proof. split; [constructor |]; try lia; destruct (_ <? _); lia. Qed.

Lemma on_line_done (x1 y1 x2 y2 x y err i j : Z) :
  on_line x1 y1 x2 y2 x y err i j ->
  ((x =? x2) && (y =? y2) = true <->
   i = Z.abs (x2 - x1) /\ j = Z.abs (y2 - y1)).
Proof.
  intros [[Hi Hj Hx Hy _] _]. rewrite andb_true_iff, !Z.eqb_eq.
  destruct (Z.ltb_spec x1 x2), (Z.ltb_spec y1 y2); lia.
Qed.

(** One iteration keeps the state on the line and makes progress. *)
Lemma on_line_step (x1 y1 x2 y2 x y err i j : Z) :
  let dx := Z.abs (x2 - x1) in
  let dy := Z.abs (y2 - y1) in
  let sx := if x1 <? x2 then 1 else -1 in
  let sy := if y1 <? y2 then 1 else -1 in
  on_line x1 y1 x2 y2 x y err i j ->
  (x =? x2) && (y =? y2) = false ->
  let e2 := 2 * err in
  let '(err', x') := if - dy <? e2 then (err - dy, x + sx) else (err, x) in
  let '(err'', y') := if e2 <? dx then (err' + dx, y + sy) else (err', y) in
  exists i' j',
    on_line x1 y1 x2 y2 x' y' err'' i' j' /\
    (dx - i') + (dy - j') < (dx - i) + (dy - j).
Proof.
  intros dx dy sx sy Hol Hnot e2.
  assert (~ (i = dx /\ j = dy)) as Hprog.
  { intros H. apply (on_line_done _ _ _ _ _ _ _ _ _ Hol) in H. congruence. }
  destruct Hol as [[Hi Hj Hx Hy Hclose] Herr].
  fold dx in Hi, Herr, Hclose. fold dy in Hj, Herr, Hclose.
  fold sx in Hx. fold sy in Hy.
  assert (0 <= dx) as Hdx by (subst dx; lia).
  assert (0 <= dy) as Hdy by (subst dy; lia).
  subst e2.
  destruct (Z.ltb_spec (- dy) (2 * err)) as [Hxs | Hxs];
    destruct (Z.ltb_spec (2 * err) dx) as [Hys | Hys].
  - exists (i + 1), (j + 1).
    assert (i < dx) by (subst err; nia).
    assert (j < dy) by (subst err; nia).
    split; [split; [constructor |]; fold dx dy sx sy; try lia; subst err; nia | lia].
  - exists (i + 1), j.
    assert (i < dx) by (subst err; nia).
    split; [split; [constructor |]; fold dx dy sx sy; try lia; subst err; nia | lia].
  - exists i, (j + 1).
    assert (j < dy) by (subst err; nia).
    split; [split; [constructor |]; fold dx dy sx sy; try lia; subst err; nia | lia].
  - exfalso. apply Hprog. subst err. nia.
Qed.

Lemma draw_loop_S (fuel : nat) (g : Grid)
    (x y x2 y2 dx dy sx sy err hh ww : Z) :
  draw_loop (S fuel) g x y x2 y2 dx dy sx sy err hh ww =
  match plot g x y hh ww with
  | Raise e => Some (Raise e)
  | Ok g1 =>
      if (x =? x2) && (y =? y2) then Some (Ok g1)
      else
        let '(err', x') :=
          if - dy <? 2 * err then (err - dy, x + sx) else (err, x) in
        let '(err'', y') :=
          if 2 * err <? dx then (err' + dx, y + sy) else (err', y) in
        draw_loop fuel g1 x' y' x2 y2 dx dy sx sy err'' hh ww
  end.
Proof. reflexivity. Qed.

(** More fuel does not change a result. *)
Lemma draw_loop_mono (fuel : nat) :
  forall g x y x2 y2 dx dy sx sy err hh ww r,
    draw_loop fuel g x y x2 y2 dx dy sx sy err hh ww = Some r ->
    draw_loop (S fuel) g x y x2 y2 dx dy sx sy err hh ww = Some r.
Proof.
  induction fuel as [| fuel IH]; intros g x y x2 y2 dx dy sx sy err hh ww r H;
    [discriminate |].
  rewrite draw_loop_S in H. rewrite (draw_loop_S (S fuel)).
  destruct (plot g x y hh ww) as [g1 | e]; [| exact H].
  destruct ((x =? x2) && (y =? y2)); [exact H |].
  destruct (- dy <? 2 * err); destruct (2 * err <? dx); apply IH; exact H.
Qed.

Lemma draw_loop_mono_le (fuel fuel' : nat) :
  (fuel <= fuel')%nat ->
  forall g x y x2 y2 dx dy sx sy err hh ww r,
    draw_loop fuel g x y x2 y2 dx dy sx sy err hh ww = Some r ->
    draw_loop fuel' g x y x2 y2 dx dy sx sy err hh ww = Some r.
Proof.
  induction 1 as [| fuel' _ IH]; intros; [assumption |].
  apply draw_loop_mono, IH. assumption.
Qed.

(** The loop ends within the steps that are left on the line, whatever
    the grid. *)
Lemma draw_loop_terminates (x1 y1 x2 y2 hh ww : Z) (fuel : nat) :
  forall g x y err i j,
    on_line x1 y1 x2 y2 x y err i j ->
    (Z.abs (x2 - x1) - i) + (Z.abs (y2 - y1) - j) < Z.of_nat fuel ->
    exists r,
      draw_loop fuel g x y x2 y2 (Z.abs (x2 - x1)) (Z.abs (y2 - y1))
        (if x1 <? x2 then 1 else -1) (if y1 <? y2 then 1 else -1)
        err hh ww = Some r.
Proof.
  induction fuel as [| fuel IH]; intros g x y err i j Hol Hfuel.
  - destruct Hol as [[] _]. lia.
  - simpl. destruct (plot g x y hh ww) as [g1 | e]; [| eauto].
    destruct ((x =? x2) && (y =? y2)) eqn:Hdone; [eauto |].
    pose proof (on_line_step _ _ _ _ _ _ _ _ _ Hol Hdone) as Hstep.
    cbv zeta in Hstep.
    destruct (- Z.abs (y2 - y1) <? 2 * err);
      destruct (2 * err <? Z.abs (x2 - x1));
      destruct Hstep as (i' & j' & Hol' & Hlt);
      apply (IH _ _ _ _ i' j' Hol'); lia.
Qed.

(** On a rectangular grid the loop returns a grid of the same shape; the
    cells it changes lie on the line; the current cell and the end cell
    are drawn. *)
Lemma draw_loop_rect (x1 y1 x2 y2 : Z) (h w : nat) (fuel : nat) :
  forall g x y err i j,
    rect h w g ->
    on_line x1 y1 x2 y2 x y err i j ->
    (Z.abs (x2 - x1) - i) + (Z.abs (y2 - y1) - j) < Z.of_nat fuel ->
    exists g',
      draw_loop fuel g x y x2 y2 (Z.abs (x2 - x1)) (Z.abs (y2 - y1))
        (if x1 <? x2 then 1 else -1) (if y1 <? y2 then 1 else -1)
        err (Z.of_nat h) (Z.of_nat w) = Some (Ok g') /\
      rect h w g' /\ marks (on_segment x1 y1 x2 y2) g g' /\
      drawn h w g g' x y /\ drawn h w g g' x2 y2.
Proof.
  induction fuel as [| fuel IH]; intros g x y err i j Hrect Hol Hfuel.
  - destruct Hol as [[] _]. lia.
  - simpl.
    destruct (plot_rect h w g x y Hrect) as (g1 & -> & Hrect1 & Hcells & Hdrawn).
    assert (marks (on_segment x1 y1 x2 y2) g g1) as Hm1.
    { eapply marks_weaken; [| exact Hcells].
      intros cx cy [-> ->]. exists i, j. apply Hol. }
    destruct ((x =? x2) && (y =? y2)) eqn:Hdone.
    { exists g1. apply andb_true_iff in Hdone as [Hx Hy].
      apply Z.eqb_eq in Hx, Hy. subst x2 y2. auto. }
    pose proof (on_line_step _ _ _ _ _ _ _ _ _ Hol Hdone) as Hstep.
    cbv zeta in Hstep.
    destruct (- Z.abs (y2 - y1) <? 2 * err);
      destruct (2 * err <? Z.abs (x2 - x1));
      destruct Hstep as (i' & j' & Hol' & Hlt);
      (destruct (IH g1 _ _ _ i' j' Hrect1 Hol')
         as (g' & Hrun & Hrect' & Hm' & _ & Hend);
       [lia |]; exists g'; rewrite Hrun;
       eauto 8 using marks_trans, drawn_marks, marks_drawn).
Qed.

Lemma line_fuel_enough (x1 y1 x2 y2 : Z) :
  (Z.abs (x2 - x1) - 0) + (Z.abs (y2 - y1) - 0)
  < Z.of_nat (line_fuel x1 y1 x2 y2).
Proof. unfold line_fuel. lia. Qed.

(** [_draw_line] always ends, and any larger number of iterations gives
    the same result. *)
Lemma draw_line_total (g : Grid) (x1 y1 x2 y2 : Z) :
  exists r,
    _draw_line g x1 y1 x2 y2 = Some r /\
    forall fuel, (line_fuel x1 y1 x2 y2 <= fuel)%nat ->
                 _draw_line_fuel fuel g x1 y1 x2 y2 = Some r.
Proof.
  unfold _draw_line, _draw_line_fuel.
  destruct (list_get g 0) as [row0 | e]; [| eauto].
  destruct (draw_loop_terminates x1 y1 x2 y2
              (Z.of_nat (length g)) (Z.of_nat (length row0))
              (line_fuel x1 y1 x2 y2) g x1 y1 _ 0 0
              (on_line_start x1 y1 x2 y2) (line_fuel_enough x1 y1 x2 y2))
    as (r & Hr).
  exists r. split; [exact Hr |].
  intros fuel Hle. eapply draw_loop_mono_le; eassumption.
Qed.

(** On a rectangular grid with at least one row, [_draw_line] returns a
    grid of the same shape, changes cells of the line only, into point
    glyphs, and draws both end cells. *)
Lemma draw_line_rect (h w : nat) (g : Grid) (x1 y1 x2 y2 : Z) :
  rect h w g -> (0 < h)%nat ->
  exists g', _draw_line g x1 y1 x2 y2 = Some (Ok g') /\
             rect h w g' /\ marks (on_segment x1 y1 x2 y2) g g' /\
             drawn h w g g' x1 y1 /\ drawn h w g g' x2 y2.
Proof.
  intros Hrect Hh. pose proof Hrect as [Hlen _].
  unfold _draw_line, _draw_line_fuel.
  destruct (list_get_in g 0) as (row0 & Hrow0 & ->); [lia |].
  rewrite (rect_row _ _ _ _ _ Hrect Hrow0), Hlen.
  apply (draw_loop_rect x1 y1 x2 y2 h w _ g x1 y1 _ 0 0 Hrect
           (on_line_start x1 y1 x2 y2) (line_fuel_enough x1 y1 x2 y2)).
Qed.

(** **** Scaling to grid coordinates *)

Lemma check_from_sound (n : nat) :
  forall v, check_from n v = true ->
  forall k, v <= k < v + Z.of_nat n -> scale_exact k = true.
Proof.
  induction n as [| n IH]; intros v Hc k Hk; [lia |].
  simpl in Hc. apply andb_true_iff in Hc as [Hv Hrest].
  destruct (Z.eq_dec k v) as [-> | Hne]; [exact Hv |].
  apply (IH (v + 1) Hrest). lia.
Qed.

Lemma scale_exact_checked :
  check_from (Z.to_nat (2 * COORD_BOUND + 1)) (- COORD_BOUND) = true.
Proof. vm_cast_no_check (eq_refl true). Qed.

Lemma scale_bounded (v : Z) :
  - COORD_BOUND <= v <= COORD_BOUND ->
  scale v (width - 2) = Ok (Z.quot (v * 58) 255) /\
  scale v (height - 2) = Ok (Z.quot (v * 18) 255).
Proof.
  intros Hv.
  pose proof (check_from_sound _ _ scale_exact_checked v) as H.
  unfold scale_exact in H.
  destruct (scale v (width - 2)) as [a | e]; [| discriminate H; unfold COORD_BOUND in *; lia].
  destruct (scale v (height - 2)) as [b | e]; [| discriminate H; unfold COORD_BOUND in *; lia].
  assert ((a =? Z.quot (v * 58) 255) && (b =? Z.quot (v * 18) 255) = true) as Hab
    by (apply H; unfold COORD_BOUND in *; lia).
  apply andb_true_iff in Hab as [Ha Hb].
  apply Z.eqb_eq in Ha, Hb. subst. split; reflexivity.
Qed.

Lemma grid_bounded (p : Z * Z) :
  bounded p ->
  grid_x (fst p) = Ok (fst (to_grid p)) /\ grid_y (snd p) = Ok (snd (to_grid p)).
Proof.
  intros [Hx Hy]. unfold grid_x, grid_y.
  rewrite (proj1 (scale_bounded _ Hx)), (proj2 (scale_bounded _ Hy)).
  split; reflexivity.
Qed.

Lemma bounded_scalable (p : Z * Z) : bounded p -> scalable p.
Proof. intros H. destruct (grid_bounded p H) as [Hx Hy]. split; eauto. Qed.

(** **** The loop over the points *)

Lemma plot_points_connect (pts : list (Z * Z)) :
  Forall bounded pts -> forall g, plot_points pts g = connect pts g.
Proof.
  induction 1 as [| p rest Hp Hrest IH]; intros g; [reflexivity |].
  destruct rest as [| q rest']; [destruct p; reflexivity |].
  pose proof (Forall_inv Hrest) as Hq.
  destruct (grid_bounded p Hp) as [Hpx Hpy].
  destruct (grid_bounded q Hq) as [Hqx Hqy].
  destruct p as [x1 y1], q as [x2 y2].
  change (plot_points ((x1, y1) :: (x2, y2) :: rest') g) with
    (match rbind (grid_x x1) (fun gx1 =>
           rbind (grid_y y1) (fun gy1 =>
           rbind (grid_x x2) (fun gx2 =>
           rbind (grid_y y2) (fun gy2 => Ok (gx1, gy1, gx2, gy2))))) with
     | Raise e => Some (Raise e)
     | Ok (gx1, gy1, gx2, gy2) =>
         match _draw_line g gx1 gy1 gx2 gy2 with
         | Some (Ok g') => plot_points ((x2, y2) :: rest') g'
         | other => other
         end
     end).
  simpl fst in *. simpl snd in *.
  rewrite Hpx, Hpy, Hqx, Hqy. simpl rbind. cbv iota.
  change (connect ((x1, y1) :: (x2, y2) :: rest') g) with
    (match _draw_line g (fst (to_grid (x1, y1))) (snd (to_grid (x1, y1)))
                        (fst (to_grid (x2, y2))) (snd (to_grid (x2, y2))) with
     | Some (Ok g') => connect ((x2, y2) :: rest') g'
     | other => other
     end).
  destruct (_draw_line g _ _ _ _) as [[g' | e] |]; try reflexivity.
  apply IH.
Qed.

Lemma plot_points_total (pts : list (Z * Z)) :
  forall g, exists r, plot_points pts g = Some r.
Proof.
  induction pts as [| [x1 y1] rest IH]; intros g; [simpl; eauto |].
  destruct rest as [| [x2 y2] rest']; [simpl; eauto |].
  change (plot_points ((x1, y1) :: (x2, y2) :: rest') g) with
    (match rbind (grid_x x1) (fun gx1 =>
           rbind (grid_y y1) (fun gy1 =>
           rbind (grid_x x2) (fun gx2 =>
           rbind (grid_y y2) (fun gy2 => Ok (gx1, gy1, gx2, gy2))))) with
     | Raise e => Some (Raise e)
     | Ok (gx1, gy1, gx2, gy2) =>
         match _draw_line g gx1 gy1 gx2 gy2 with
         | Some (Ok g') => plot_points ((x2, y2) :: rest') g'
         | other => other
         end
     end).
  destruct (rbind (grid_x x1) _) as [[[[gx1 gy1] gx2] gy2] | e]; [| eauto].
  destruct (draw_line_total g gx1 gy1 gx2 gy2) as (r & -> & _).
  destruct r as [g' | e]; [apply IH | eauto].
Qed.

Lemma plot_points_rect (h w : nat) (pts : list (Z * Z)) :
  (0 < h)%nat -> Forall scalable pts ->
  forall g, rect h w g ->
    exists g', plot_points pts g = Some (Ok g') /\ rect h w g' /\
               marks anywhere g g'.
Proof.
  intros Hh. induction 1 as [| p rest Hp Hrest IH]; intros g Hrect.
  - exists g. simpl. auto using marks_refl.
  - destruct rest as [| q rest'].
    + exists g. destruct p. simpl. auto using marks_refl.
    + pose proof (Forall_inv Hrest) as Hq.
      destruct Hp as [[gx1 Hx1] [gy1 Hy1]], Hq as [[gx2 Hx2] [gy2 Hy2]].
      destruct p as [x1 y1], q as [x2 y2]. simpl fst in *. simpl snd in *.
      change (plot_points ((x1, y1) :: (x2, y2) :: rest') g) with
        (match rbind (grid_x x1) (fun gx1 =>
               rbind (grid_y y1) (fun gy1 =>
               rbind (grid_x x2) (fun gx2 =>
               rbind (grid_y y2) (fun gy2 => Ok (gx1, gy1, gx2, gy2))))) with
         | Raise e => Some (Raise e)
         | Ok (gx1, gy1, gx2, gy2) =>
             match _draw_line g gx1 gy1 gx2 gy2 with
             | Some (Ok g') => plot_points ((x2, y2) :: rest') g'
             | other => other
             end
         end).
      rewrite Hx1, Hy1, Hx2, Hy2. simpl rbind. cbv iota.
      destruct (draw_line_rect h w g gx1 gy1 gx2 gy2 Hrect Hh)
        as (g1 & -> & Hrect1 & Hd1 & _).
      destruct (IH g1 Hrect1) as (g' & Hrun & Hrect' & Hd').
      exists g'. split; [exact Hrun |]. split; [exact Hrect' |].
      eapply marks_trans; [| exact Hd'].
      eapply marks_weaken; [| exact Hd1]. intros; exact I.
Qed.

(** The blank grid with its axes: 20 rows of 60 cells. *)
Lemma axes_grid_rect : exists g0, axes_grid = Ok g0 /\ rect 20 60 g0.
Proof.
  eexists. split; [vm_compute; reflexivity |].
  split; [reflexivity |]. repeat constructor.
Qed.

(** **** The whole line *)

(** One iteration that is not the last keeps the state on the line and
    advances by one cell along the longer side. *)
Lemma on_line_advance (x1 y1 x2 y2 x y err i j : Z) :
  let dx := Z.abs (x2 - x1) in
  let dy := Z.abs (y2 - y1) in
  let sx := if x1 <? x2 then 1 else -1 in
  let sy := if y1 <? y2 then 1 else -1 in
  on_line x1 y1 x2 y2 x y err i j ->
  (x =? x2) && (y =? y2) = false ->
  let e2 := 2 * err in
  let '(err', x') := if - dy <? e2 then (err - dy, x + sx) else (err, x) in
  let '(err'', y') := if e2 <? dx then (err' + dx, y + sy) else (err', y) in
  exists i' j',
    on_line x1 y1 x2 y2 x' y' err'' i' j' /\
    (dx - i') + (dy - j') < (dx - i) + (dy - j) /\
    major x1 y1 x2 y2 i' j' = major x1 y1 x2 y2 i j + 1.
Proof.
  intros dx dy sx sy Hol Hnot e2.
  assert (~ (i = dx /\ j = dy)) as Hprog.
  { intros H. apply (on_line_done _ _ _ _ _ _ _ _ _ Hol) in H. congruence. }
  destruct Hol as [[Hi Hj Hx Hy Hclose] Herr].
  unfold major. fold dx dy.
  fold dx in Hi, Herr, Hclose. fold dy in Hj, Herr, Hclose.
  fold sx in Hx. fold sy in Hy.
  assert (0 <= dx) as Hdx by (subst dx; lia).
  assert (0 <= dy) as Hdy by (subst dy; lia).
  assert (err = j * dx - i * dy + dx - dy) as Herr' by (subst err; ring).
  assert (- Z.max dx dy <= 2 * (j * dx - i * dy) <= Z.max dx dy) as Hclose'
    by (apply Z.abs_le; exact Hclose).
  subst e2.
  destruct (Z.ltb_spec (- dy) (2 * err)) as [Hxs | Hxs];
    destruct (Z.ltb_spec (2 * err) dx) as [Hys | Hys].
  - exists (i + 1), (j + 1).
    assert (i < dx) by (subst err; nia).
    assert (j < dy) by (subst err; nia).
    split; [split; [constructor |]; fold dx dy sx sy; try lia; subst err; nia |].
    split; [lia |]. destruct (dy <=? dx); lia.
  - exists (i + 1), j.
    assert (i < dx) by (subst err; nia).
    assert (dy <= dx) as Hle by lia.
    split; [split; [constructor |]; fold dx dy sx sy; try lia; subst err; nia |].
    split; [lia |]. destruct (Z.leb_spec dy dx); lia.
  - exists i, (j + 1).
    assert (j < dy) by (subst err; nia).
    assert (dx < dy) as Hlt.
    { destruct (Z.lt_ge_cases dx dy) as [Hlt | Hge]; [exact Hlt | exfalso].
      assert (dx = dy) as Heq by lia.
      rewrite Heq in Hclose'. rewrite Z.max_id in Hclose'.
      assert (j = i) by nia. subst j. lia. }
    split; [split; [constructor |]; fold dx dy sx sy; try lia; subst err; nia |].
    split; [lia |]. destruct (Z.leb_spec dy dx); lia.
  - exfalso. apply Hprog. subst err. nia.
Qed.

Lemma major_bound (x1 y1 x2 y2 x y i j : Z) :
  line_cell x1 y1 x2 y2 x y i j ->
  0 <= major x1 y1 x2 y2 i j <= steps x1 y1 x2 y2.
Proof.
  intros [Hi Hj _ _ _]. unfold major, steps.
  destruct (Z.leb_spec (Z.abs (y2 - y1)) (Z.abs (x2 - x1))); lia.
Qed.

Lemma major_end (x1 y1 x2 y2 : Z) :
  major x1 y1 x2 y2 (Z.abs (x2 - x1)) (Z.abs (y2 - y1)) = steps x1 y1 x2 y2.
Proof.
  unfold major, steps.
  destruct (Z.leb_spec (Z.abs (y2 - y1)) (Z.abs (x2 - x1))); lia.
Qed.

(** On a rectangular grid the loop draws the rest of the line: one cell
    for every step from the current one to the last. *)
Lemma draw_loop_covers (x1 y1 x2 y2 : Z) (h w : nat) (fuel : nat) :
  forall g x y err i j,
    rect h w g ->
    on_line x1 y1 x2 y2 x y err i j ->
    (Z.abs (x2 - x1) - i) + (Z.abs (y2 - y1) - j) < Z.of_nat fuel ->
    exists g',
      draw_loop fuel g x y x2 y2 (Z.abs (x2 - x1)) (Z.abs (y2 - y1))
        (if x1 <? x2 then 1 else -1) (if y1 <? y2 then 1 else -1)
        err (Z.of_nat h) (Z.of_nat w) = Some (Ok g') /\
      rect h w g' /\ marks (on_segment x1 y1 x2 y2) g g' /\
      forall k, major x1 y1 x2 y2 i j <= k <= steps x1 y1 x2 y2 ->
        exists cx cy ci cj,
          line_cell x1 y1 x2 y2 cx cy ci cj /\
          major x1 y1 x2 y2 ci cj = k /\
          drawn h w g g' cx cy.
Proof.
  induction fuel as [| fuel IH]; intros g x y err i j Hrect Hol Hfuel.
  - destruct Hol as [[] _]. lia.
  - rewrite draw_loop_S.
    destruct (plot_rect h w g x y Hrect) as (g1 & -> & Hrect1 & Hcells & Hdrawn).
    assert (marks (on_segment x1 y1 x2 y2) g g1) as Hm1.
    { eapply marks_weaken; [| exact Hcells].
      intros cx cy [-> ->]. exists i, j. apply Hol. }
    destruct ((x =? x2) && (y =? y2)) eqn:Hdone.
    { exists g1. split; [reflexivity |]. split; [exact Hrect1 |].
      split; [exact Hm1 |]. intros k Hk.
      apply (on_line_done _ _ _ _ _ _ _ _ _ Hol) in Hdone as [-> ->].
      rewrite major_end in Hk.
      exists x, y, (Z.abs (x2 - x1)), (Z.abs (y2 - y1)).
      split; [apply Hol |]. split; [rewrite major_end; lia | exact Hdrawn]. }
    pose proof (on_line_advance _ _ _ _ _ _ _ _ _ Hol Hdone) as Hstep.
    cbv zeta in Hstep.
    destruct (if - Z.abs (y2 - y1) <? 2 * err
              then (err - Z.abs (y2 - y1), x + (if x1 <? x2 then 1 else -1))
              else (err, x)) as [err' x'].
    destruct (if 2 * err <? Z.abs (x2 - x1)
              then (err' + Z.abs (x2 - x1), y + (if y1 <? y2 then 1 else -1))
              else (err', y)) as [err'' y'].
    destruct Hstep as (i' & j' & Hol' & Hlt & Hmaj).
    destruct (IH g1 x' y' err'' i' j' Hrect1 Hol' ltac:(lia))
      as (g' & Hrun & Hrect' & Hm' & Hcov).
    exists g'. split; [exact Hrun |]. split; [exact Hrect' |].
    split; [eapply marks_trans; eassumption |].
    intros k Hk.
    destruct (Z.eq_dec k (major x1 y1 x2 y2 i j)) as [-> | Hne].
    + exists x, y, i, j. split; [apply Hol |]. split; [reflexivity |].
      eapply drawn_marks; eassumption.
    + destruct (Hcov k ltac:(lia)) as (cx & cy & ci & cj & Hlc & Hmk & Hd).
      exists cx, cy, ci, cj. split; [exact Hlc |]. split; [exact Hmk |].
      eapply marks_drawn; eassumption.
Qed.

(** On a rectangular grid with at least one row, [_draw_line] returns a
    grid of the same shape, changes cells of the line only, into point
    glyphs, and draws the whole line. *)
Lemma draw_line_covers (h w : nat) (g : Grid) (x1 y1 x2 y2 : Z) :
  rect h w g -> (0 < h)%nat ->
  exists g', _draw_line g x1 y1 x2 y2 = Some (Ok g') /\
             rect h w g' /\ marks (on_segment x1 y1 x2 y2) g g' /\
             covers h w g g' x1 y1 x2 y2.
Proof.
  intros Hrect Hh. pose proof Hrect as [Hlen _].
  unfold _draw_line, _draw_line_fuel.
  destruct (list_get_in g 0) as (row0 & Hrow0 & ->); [lia |].
  rewrite (rect_row _ _ _ _ _ Hrect Hrow0), Hlen.
  destruct (draw_loop_covers x1 y1 x2 y2 h w _ g x1 y1 _ 0 0 Hrect
              (on_line_start x1 y1 x2 y2) (line_fuel_enough x1 y1 x2 y2))
    as (g' & Hrun & Hrect' & Hm & Hcov).
  exists g'. split; [exact Hrun |]. split; [exact Hrect' |].
  split; [exact Hm |]. intros k Hk. apply Hcov.
  unfold major. destruct (_ <=? _); lia.
Qed.

Lemma covers_marks (P : Z -> Z -> Prop) (h w : nat) (g g1 g' : Grid)
    (x1 y1 x2 y2 : Z) :
  covers h w g g1 x1 y1 x2 y2 -> marks P g1 g' -> covers h w g g' x1 y1 x2 y2.
Proof.
  intros Hc Hm k Hk. destruct (Hc k Hk) as (x & y & i & j & Hl & Hmk & Hd).
  exists x, y, i, j. split; [exact Hl |]. split; [exact Hmk |].
  eapply drawn_marks; eassumption.
Qed.

Lemma marks_covers (P : Z -> Z -> Prop) (h w : nat) (g g1 g' : Grid)
    (x1 y1 x2 y2 : Z) :
  marks P g g1 -> covers h w g1 g' x1 y1 x2 y2 -> covers h w g g' x1 y1 x2 y2.
Proof.
  intros Hm Hc k Hk. destruct (Hc k Hk) as (x & y & i & j & Hl & Hmk & Hd).
  exists x, y, i, j. split; [exact Hl |]. split; [exact Hmk |].
  eapply marks_drawn; eassumption.
Qed.

Lemma mapped_inj (p : Z * Z) (gx gy gx' gy' : Z) :
  mapped p gx gy -> mapped p gx' gy' -> gx = gx' /\ gy = gy'.
Proof. intros [H1 H2] [H3 H4]. split; congruence. Qed.

(** The loop over the points, when every point can be scaled: it
    returns a grid of the same shape; the cells it changes lie on the
    lines between consecutive points, at the coordinates computed for
    them; and each of these lines is drawn whole. *)
Lemma plot_points_path (h w : nat) (pts : list (Z * Z)) :
  (0 < h)%nat -> Forall scalable pts ->
  forall g, rect h w g ->
    exists g', plot_points pts g = Some (Ok g') /\ rect h w g' /\
               marks (on_path pts) g g' /\
               forall p q gx1 gy1 gx2 gy2,
                 joined pts p q -> mapped p gx1 gy1 -> mapped q gx2 gy2 ->
                 covers h w g g' gx1 gy1 gx2 gy2.
Proof.
  intros Hh. induction 1 as [| p rest Hp Hrest IH]; intros g Hrect.
  - exists g. simpl. split; [reflexivity |]. split; [exact Hrect |].
    split; [apply marks_refl |]. intros ? ? ? ? ? ? [].
  - destruct rest as [| q rest'].
    + exists g. destruct p. simpl. split; [reflexivity |]. split; [exact Hrect |].
      split; [apply marks_refl |]. intros ? ? ? ? ? ? [].
    + pose proof (Forall_inv Hrest) as Hq.
      destruct Hp as [[gx1 Hx1] [gy1 Hy1]], Hq as [[gx2 Hx2] [gy2 Hy2]].
      assert (mapped p gx1 gy1) as Hmp by (split; assumption).
      assert (mapped q gx2 gy2) as Hmq by (split; assumption).
      destruct p as [x1 y1], q as [x2 y2]. simpl fst in *. simpl snd in *.
      change (plot_points ((x1, y1) :: (x2, y2) :: rest') g) with
        (match rbind (grid_x x1) (fun gx1 =>
               rbind (grid_y y1) (fun gy1 =>
               rbind (grid_x x2) (fun gx2 =>
               rbind (grid_y y2) (fun gy2 => Ok (gx1, gy1, gx2, gy2))))) with
         | Raise e => Some (Raise e)
         | Ok (gx1, gy1, gx2, gy2) =>
             match _draw_line g gx1 gy1 gx2 gy2 with
             | Some (Ok g') => plot_points ((x2, y2) :: rest') g'
             | other => other
             end
         end).
      rewrite Hx1, Hy1, Hx2, Hy2. simpl rbind. cbv iota.
      destruct (draw_line_covers h w g gx1 gy1 gx2 gy2 Hrect Hh)
        as (g1 & -> & Hrect1 & Hm1 & Hc1).
      destruct (IH g1 Hrect1) as (g' & Hrun & Hrect' & Hm' & Hc').
      assert (marks (on_path ((x1, y1) :: (x2, y2) :: rest')) g g1) as Hm1'.
      { eapply marks_weaken; [| exact Hm1]. intros x y Hseg.
        exists (x1, y1), (x2, y2), gx1, gy1, gx2, gy2.
        split; [left; split; reflexivity |]. auto. }
      assert (marks (on_path ((x1, y1) :: (x2, y2) :: rest')) g1 g') as Hm2'.
      { eapply marks_weaken; [| exact Hm']. intros x y
          (p & q & a1 & b1 & a2 & b2 & Hj & Hp1 & Hq1 & Hseg).
        exists p, q, a1, b1, a2, b2. split; [right; exact Hj |]. auto. }
      exists g'. split; [exact Hrun |]. split; [exact Hrect' |].
      split; [eapply marks_trans; eassumption |].
      intros p q a1 b1 a2 b2 Hj Hp1 Hq1.
      destruct Hj as [[-> ->] | Hj].
      * destruct (mapped_inj _ _ _ _ _ Hp1 Hmp) as [-> ->].
        destruct (mapped_inj _ _ _ _ _ Hq1 Hmq) as [-> ->].
        eapply covers_marks; eassumption.
      * eapply marks_covers; [exact Hm1 |]. apply (Hc' p q); assumption.
Qed.

(** **** The exceptions of the scaling *)

Lemma shr_1_nonneg (mrs : shr_record) : 0 <= shr_m mrs -> 0 <= shr_m (shr_1 mrs).
Proof.
  destruct mrs as [m r s]. simpl. intros Hm.
  destruct m as [| [p | p |] | p]; simpl; lia.
Qed.

Lemma iter_shr_1_nonneg (p : positive) :
  forall mrs, 0 <= shr_m mrs -> 0 <= shr_m (SpecFloat.iter_pos shr_1 p mrs).
Proof.
  induction p as [p IH | p IH |]; intros mrs Hm; simpl.
  - apply IH, IH, shr_1_nonneg, Hm.
  - apply IH, IH, Hm.
  - apply shr_1_nonneg, Hm.
Qed.

Lemma shr_fexp_nonneg (m e : Z) (l : location) :
  0 <= m -> 0 <= shr_m (fst (shr_fexp prec emax m e l)).
Proof.
  intros Hm. unfold shr_fexp, shr.
  assert (0 <= shr_m (shr_record_of_loc m l)) as H0
    by (destruct l as [| []]; exact Hm).
  destruct (fexp prec emax (Zdigits2 m + e) - e) as [| p | p]; simpl;
    [exact H0 | apply iter_shr_1_nonneg; exact H0 | exact H0].
Qed.

Lemma binary_round_aux_not_nan (sx : bool) (mx ex : Z) (lx : location) :
  0 <= mx -> binary_round_aux prec emax sx mx ex lx <> S754_nan.
Proof.
  intros Hm. unfold binary_round_aux.
  pose proof (shr_fexp_nonneg mx ex lx Hm) as H1.
  destruct (shr_fexp prec emax mx ex lx) as [mrs' e']. simpl in H1.
  assert (0 <= round_nearest_even (shr_m mrs') (loc_of_shr_record mrs')) as H2.
  { unfold round_nearest_even.
    destruct (loc_of_shr_record mrs') as [| []]; try lia.
    destruct (Z.even (shr_m mrs')); lia. }
  pose proof (shr_fexp_nonneg _ e' loc_Exact H2) as H3.
  destruct (shr_fexp prec emax _ e' loc_Exact) as [mrs'' e'']. simpl in H3.
  destruct (shr_m mrs'') as [| p | p]; [discriminate | | lia].
  destruct (e'' <=? emax - prec); discriminate.
Qed.

(** A quotient of two ints is a zero or a finite float, unless the
    division raises [OverflowError]. *)
Lemma int_truediv_cases (a b : Z) :
  b <> 0 ->
  match int_truediv a b with
  | Raise e => e = OverflowError
  | Ok q => match q with S754_zero _ | S754_finite _ _ _ => True | _ => False end
  end.
Proof.
  intros Hb. unfold int_truediv.
  destruct (Z.eqb_spec b 0) as [-> | _]; [congruence |].
  destruct a as [| pa | pa], b as [| pb | pb]; try congruence; simpl SFdiv;
    try exact I;
    match goal with
    | |- context [SFdiv_core_binary ?p ?e ?m1 ?e1 ?m2 ?e2] =>
        let H := fresh in
        pose proof (fun sx => binary_round_aux_not_nan sx
                      (fst (fst (SFdiv_core_binary p e m1 e1 m2 e2)))
                      (snd (fst (SFdiv_core_binary p e m1 e1 m2 e2)))
                      (snd (SFdiv_core_binary p e m1 e1 m2 e2))) as H;
        assert (0 <= fst (fst (SFdiv_core_binary p e m1 e1 m2 e2))) as Hq;
        [| destruct (SFdiv_core_binary p e m1 e1 m2 e2) as [[mz ez] lz];
           simpl in H, Hq;
           match goal with
           | |- context [binary_round_aux _ _ ?s mz ez lz] =>
               specialize (H s Hq);
               destruct (binary_round_aux prec emax s mz ez lz);
               try exact I; try reflexivity; congruence
           end ]
    end.
  all: unfold SFdiv_core_binary; cbv zeta;
    match goal with
    | |- context [Z.div_eucl ?n ?d] =>
        pose proof (Z_div_mod n d ltac:(lia)) as Hdm;
        assert (0 <= n) as Hn;
        [| destruct (Z.div_eucl n d) as [q r]; simpl; nia ]
    end;
    match goal with
    | |- 0 <= match ?s with _ => _ end =>
        destruct s; [lia | apply Z.shiftl_nonneg; lia | lia]
    end.
Qed.

Lemma scale_raises (v n : Z) (e : exn) :
  (n = 58 \/ n = 18) -> scale v n = Raise e -> e = OverflowError.
Proof.
  intros Hn. unfold scale.
  pose proof (int_truediv_cases v 255 ltac:(lia)) as Hq.
  destruct (int_truediv v 255) as [q | e']; simpl; [| congruence].
  unfold float_mul_int.
  assert (exists m ex, float_of_int n = S754_finite false m ex) as (m & ex & ->)
    by (destruct Hn as [-> | ->]; vm_compute; eauto).
  destruct q as [s | s | | s mq eq]; try contradiction; simpl; [discriminate |].
  pose proof (binary_round_aux_not_nan (xorb s false) (Z.pos (mq * m)) (eq + ex)
                loc_Exact ltac:(lia)) as Hnn.
  destruct (binary_round_aux prec emax _ _ _ _); simpl; try discriminate;
    congruence.
Qed.

Lemma grid_raises (v : Z) (e : exn) :
  (grid_x v = Raise e -> e = OverflowError) /\
  (grid_y v = Raise e -> e = OverflowError).
Proof.
  unfold grid_x, grid_y. split.
  - pose proof (scale_raises v (width - 2) e ltac:(left; reflexivity)) as H.
    destruct (scale v (width - 2)); simpl; [discriminate | exact H].
  - pose proof (scale_raises v (height - 2) e ltac:(right; reflexivity)) as H.
    destruct (scale v (height - 2)); simpl; [discriminate | exact H].
Qed.

(** The loop over the points on a rectangular grid returns a grid, or
    raises [OverflowError] at a point that cannot be scaled. *)
Lemma plot_points_outcome (h w : nat) (pts : list (Z * Z)) :
  (0 < h)%nat ->
  forall g, rect h w g ->
    (exists g', plot_points pts g = Some (Ok g') /\ rect h w g') \/
    (plot_points pts g = Some (Raise OverflowError) /\ ~ Forall scalable pts).
Proof.
  intros Hh. induction pts as [| [x1 y1] rest IH]; intros g Hrect;
    [left; exists g; simpl; auto |].
  destruct rest as [| [x2 y2] rest']; [left; exists g; simpl; auto |].
  change (plot_points ((x1, y1) :: (x2, y2) :: rest') g) with
    (match rbind (grid_x x1) (fun gx1 =>
           rbind (grid_y y1) (fun gy1 =>
           rbind (grid_x x2) (fun gx2 =>
           rbind (grid_y y2) (fun gy2 => Ok (gx1, gy1, gx2, gy2))))) with
     | Raise e => Some (Raise e)
     | Ok (gx1, gy1, gx2, gy2) =>
         match _draw_line g gx1 gy1 gx2 gy2 with
         | Some (Ok g') => plot_points ((x2, y2) :: rest') g'
         | other => other
         end
     end).
  assert (forall p q l, ~ scalable p \/ ~ scalable q -> ~ Forall scalable (p :: q :: l))
    as Hns.
  { intros p q l [H | H] HF; apply H.
    - apply (Forall_inv HF).
    - apply (Forall_inv (Forall_inv_tail HF)). }
  destruct (grid_x x1) as [gx1 | e] eqn:Hx1; simpl rbind.
  2:{ right. apply (proj1 (grid_raises x1 e)) in Hx1 as Hx1'. subst e.
      split; [reflexivity |]. apply Hns. left. intros [[gx H] _].
      simpl in H. congruence. }
  destruct (grid_y y1) as [gy1 | e] eqn:Hy1; simpl rbind.
  2:{ right. apply (proj2 (grid_raises y1 e)) in Hy1 as Hy1'. subst e.
      split; [reflexivity |]. apply Hns. left. intros [_ [gy H]].
      simpl in H. congruence. }
  destruct (grid_x x2) as [gx2 | e] eqn:Hx2; simpl rbind.
  2:{ right. apply (proj1 (grid_raises x2 e)) in Hx2 as Hx2'. subst e.
      split; [reflexivity |]. apply Hns. right. intros [[gx H] _].
      simpl in H. congruence. }
  destruct (grid_y y2) as [gy2 | e] eqn:Hy2; simpl rbind.
  2:{ right. apply (proj2 (grid_raises y2 e)) in Hy2 as Hy2'. subst e.
      split; [reflexivity |]. apply Hns. right. intros [_ [gy H]].
      simpl in H. congruence. }
  cbv iota.
  destruct (draw_line_rect h w g gx1 gy1 gx2 gy2 Hrect Hh)
    as (g1 & -> & Hrect1 & _).
  destruct (IH g1 Hrect1) as [Hok | [Hraise Hnot]]; [left; exact Hok |].
  right. split; [exact Hraise |]. intros HF. apply Hnot.
  apply (Forall_inv_tail HF).
Qed.

Lemma joined_in (pts : list (Z * Z)) (p q : Z * Z) :
  joined pts p q -> In p pts /\ In q pts.
Proof.
  induction pts as [| a rest IH]; [intros [] |].
  destruct rest as [| b rest']; [intros [] |].
  intros [[-> ->] | H].
  - split; [left; reflexivity | right; left; reflexivity].
  - destruct (IH H) as [Hp Hq]. split; right; assumption.
Qed.

Lemma Forall_In {A} (P : A -> Prop) (l : list A) (x : A) :
  Forall P l -> In x l -> P x.
Proof.
  induction 1 as [| a r Ha Hr IH]; intros Hin; [destruct Hin |].
  destruct Hin as [<- | Hin]; [exact Ha | apply IH; exact Hin].
Qed.

Lemma bounded_mapped (p : Z * Z) :
  bounded p -> mapped p (fst (to_grid p)) (snd (to_grid p)).
Proof. intros H. apply (grid_bounded p H). Qed.

(** **** The claims on the preview *)

(** C8 as stated fails: the code truncates where the formula rounds. For
    [x = 3] the column is 1, the formula gives 2. *)
Lemma grid_x_truncates :
  grid_x 3 = Ok 1 /\ spec_grid_x 3 = 2 /\ grid_x 3 <> Ok (spec_grid_x 3).
Proof. vm_compute. repeat split; congruence. Qed.

(** C8, as the code has it: for coordinates between -4096 and 4096, so for
    every point of [0,255] x [0,255], a point (x, y) is mapped to the
    column [trunc(58 x / 255) + 1] and the row [18 - trunc(18 y / 255)],
    with truncation toward zero and no rounding, and [render] joins each
    point to the next one, in order, with [_draw_line] between the mapped
    points, starting from the grid that holds the axes. [_draw_line] is
    integer Bresenham drawing: it changes only blank and horizontal-axis
    cells into point glyphs, all of them cells of the line, each within
    half a cell of the ideal segment; it draws both end cells and, for
    every step from one end to the other along the longer side, one
    cell of the line. So in the grid that [render] fills, the cells that
    differ from the axes lie on the lines between consecutive mapped
    points, and each of these lines is drawn whole. *)
Theorem render_coordinate_mapping (pts : list (Z * Z)) :
  Forall bounded pts ->
  Forall (fun p => grid_x (fst p) = Ok (Z.quot (fst p * 58) 255 + 1) /\
                   grid_y (snd p) = Ok (18 - Z.quot (snd p * 18) 255)) pts /\
  (exists g0, axes_grid = Ok g0 /\ rect 20 60 g0 /\
              render_grid pts = connect pts g0) /\
  (forall g x1 y1 x2 y2, rect 20 60 g ->
     exists g', _draw_line g x1 y1 x2 y2 = Some (Ok g') /\
                rect 20 60 g' /\
                marks (on_segment x1 y1 x2 y2) g g' /\
                drawn 20 60 g g' x1 y1 /\ drawn 20 60 g g' x2 y2 /\
                covers 20 60 g g' x1 y1 x2 y2) /\
  (exists g0 g,
     axes_grid = Ok g0 /\ render_grid pts = Some (Ok g) /\ rect 20 60 g /\
     marks (fun x y =>
              exists p q,
                joined pts p q /\
                on_segment (fst (to_grid p)) (snd (to_grid p))
                           (fst (to_grid q)) (snd (to_grid q)) x y) g0 g /\
     forall p q, joined pts p q ->
       covers 20 60 g0 g (fst (to_grid p)) (snd (to_grid p))
                         (fst (to_grid q)) (snd (to_grid q))).
Proof.
  intros Hb. split; [| split; [| split]].
  - eapply Forall_impl; [exact Hb |]. intros p Hp. apply (grid_bounded p Hp).
  - destruct axes_grid_rect as (g0 & Hax & Hrect).
    exists g0. split; [exact Hax |]. split; [exact Hrect |].
    unfold render_grid. rewrite Hax. apply plot_points_connect. exact Hb.
  - intros g x1 y1 x2 y2 Hrect.
    destruct (draw_line_rect 20 60 g x1 y1 x2 y2 Hrect ltac:(lia))
      as (g' & Hrun & Hrect' & Hm & Hd1 & Hd2).
    destruct (draw_line_covers 20 60 g x1 y1 x2 y2 Hrect ltac:(lia))
      as (g'' & Hrun' & _ & _ & Hcov).
    rewrite Hrun in Hrun'. injection Hrun' as <-.
    exists g'. auto 10.
  - destruct axes_grid_rect as (g0 & Hax & Hrect).
    assert (Forall scalable pts) as Hs
      by (eapply Forall_impl; [exact Hb | apply bounded_scalable]).
    destruct (plot_points_path 20 60 pts ltac:(lia) Hs g0 Hrect)
      as (g & Hrun & Hrect' & Hm & Hcov).
    exists g0, g. split; [exact Hax |].
    split; [unfold render_grid; rewrite Hax; exact Hrun |].
    split; [exact Hrect' |]. split.
    + eapply marks_weaken; [| exact Hm].
      intros x y (p & q & gx1 & gy1 & gx2 & gy2 & Hj & Hp & Hq & Hseg).
      destruct (joined_in pts p q Hj) as [Hpin Hqin].
      destruct (mapped_inj _ _ _ _ _ Hp
                  (bounded_mapped p (Forall_In _ _ _ Hb Hpin))) as [-> ->].
      destruct (mapped_inj _ _ _ _ _ Hq
                  (bounded_mapped q (Forall_In _ _ _ Hb Hqin))) as [-> ->].
      exists p, q. split; assumption.
    + intros p q Hj. destruct (joined_in pts p q Hj) as [Hpin Hqin].
      apply (Hcov p q); [exact Hj | |];
        apply bounded_mapped; eapply Forall_In; eassumption.
Qed.

Lemma render_coordinate_mapping_witness :
  Forall (fun p => grid_x (fst p) = Ok (Z.quot (fst p * 58) 255 + 1) /\
                   grid_y (snd p) = Ok (18 - Z.quot (snd p * 18) 255))
         (points three_points) /\
  (exists g0, axes_grid = Ok g0 /\ rect 20 60 g0 /\
              render_grid (points three_points) = connect (points three_points) g0) /\
  (forall g x1 y1 x2 y2, rect 20 60 g ->
     exists g', _draw_line g x1 y1 x2 y2 = Some (Ok g') /\
                rect 20 60 g' /\
                marks (on_segment x1 y1 x2 y2) g g' /\
                drawn 20 60 g g' x1 y1 /\ drawn 20 60 g g' x2 y2 /\
                covers 20 60 g g' x1 y1 x2 y2) /\
  (exists g0 g,
     axes_grid = Ok g0 /\ render_grid (points three_points) = Some (Ok g) /\
     rect 20 60 g /\
     marks (fun x y =>
              exists p q,
                joined (points three_points) p q /\
                on_segment (fst (to_grid p)) (snd (to_grid p))
                           (fst (to_grid q)) (snd (to_grid q)) x y) g0 g /\
     covers 20 60 g0 g 1 18 15 13 /\
     covers 20 60 g0 g 15 13 59 0).
Proof.
  destruct (render_coordinate_mapping (points three_points)) as (H1 & H2 & H3 & H4).
  { repeat constructor; simpl; unfold COORD_BOUND; lia. }
  split; [exact H1 |]. split; [exact H2 |]. split; [exact H3 |].
  destruct H4 as (g0 & g & Hax & Hrun & Hrect & Hm & Hcov).
  exists g0, g. split; [exact Hax |]. split; [exact Hrun |]. split; [exact Hrect |].
  split; [exact Hm |]. split.
  - apply (Hcov (0, 0) (64, 80)). left. split; reflexivity.
  - apply (Hcov (64, 80) (255, 255)). right. left. split; reflexivity.
Defined.


(** Cells outside the grid are skipped, the coordinates are not clamped:
    a line that leaves the grid keeps its slope. *)
Lemma render_clips :
  render (Some wide_curve)
  <> render (Some (mkToneCurve (spec_clamp (points wide_curve)))).
Proof. intros H. vm_compute in H. discriminate H. Qed.



(** C10 as stated fails: [render] ends but does not return for a finite
    list with a coordinate too large for a float. *)
Lemma render_raises_on_huge_output :
  render (Some tall_curve) = Some (Raise OverflowError) /\
  (forall text, render (Some tall_curve) <> Some (Ok text)).
Proof. split; [vm_compute; reflexivity | intros text H; vm_compute in H; discriminate H]. Qed.

(** C10, as the code has it: the loop of [_draw_line] ends for every
    grid and every pair of end points, within [line_fuel] iterations,
    and more iterations give the same result; on a rectangular grid
    [_draw_line] returns; hence [render] ends for every curve: it
    returns a text when every point can be scaled, and otherwise it
    returns a text or raises [OverflowError], never another
    exception. *)
Theorem draw_line_terminates (g : Grid) (x1 y1 x2 y2 : Z)
    (tone_curve : option ToneCurve) :
  (exists r,
     _draw_line g x1 y1 x2 y2 = Some r /\
     forall fuel, (line_fuel x1 y1 x2 y2 <= fuel)%nat ->
                  _draw_line_fuel fuel g x1 y1 x2 y2 = Some r) /\
  (forall h w, rect h w g -> (0 < h)%nat ->
     exists g', _draw_line g x1 y1 x2 y2 = Some (Ok g') /\ rect h w g') /\
  (exists r, render tone_curve = Some r) /\
  (forall e, render tone_curve = Some (Raise e) ->
     e = OverflowError /\
     exists c, tone_curve = Some c /\ ~ Forall scalable (points c)) /\
  (forall c, tone_curve = Some c -> Forall scalable (points c) ->
     exists text, render tone_curve = Some (Ok text)).
Proof.
  assert (forall c : ToneCurve,
            (exists text, render (Some c) = Some (Ok text)) \/
            (render (Some c) = Some (Raise OverflowError) /\
             ~ Forall scalable (points c))) as Hcases.
  { intros c. unfold render.
    destruct (points c) as [| p rest] eqn:Hp; [left; eauto |].
    unfold render_grid. destruct axes_grid_rect as (g0 & -> & Hrect).
    destruct (plot_points_outcome 20 60 (p :: rest) ltac:(lia) g0 Hrect)
      as [(g' & -> & _) | [-> Hnot]]; [left; eauto | right; auto]. }
  split; [apply draw_line_total |]. split; [| split; [| split]].
  - intros h w Hrect Hh.
    destruct (draw_line_rect h w g x1 y1 x2 y2 Hrect Hh) as (g' & Hrun & Hr & _).
    eauto.
  - destruct tone_curve as [c |]; [| simpl; eauto].
    destruct (Hcases c) as [[text ->] | [-> _]]; eauto.
  - intros e He. destruct tone_curve as [c |]; [| discriminate He].
    destruct (Hcases c) as [[text Ht] | [Hr Hnot]]; [congruence |].
    rewrite Hr in He. injection He as <-. eauto.
  - intros c -> Hs.
    destruct (Hcases c) as [Hok | [_ Hnot]]; [exact Hok | contradiction].
Qed.

Lemma draw_line_terminates_witness :
  (exists r,
     _draw_line small_grid 1 2 300 (-200) = Some r /\
     _draw_line_fuel (S (line_fuel 1 2 300 (-200))) small_grid 1 2 300 (-200)
     = Some r) /\
  (exists g', _draw_line small_grid 1 2 300 (-200) = Some (Ok g') /\ rect 3 4 g') /\
  (exists text, render (Some three_points) = Some (Ok text)).
Proof.
  destruct (draw_line_terminates small_grid 1 2 300 (-200) (Some three_points))
    as ((r & Hr & Hfuel) & Hrect & _ & _ & Hok).
  split; [| split].
  - exists r. split; [exact Hr |]. apply Hfuel. lia.
  - apply (Hrect 3%nat 4%nat); [| lia]. split; [reflexivity | repeat constructor].
  - apply (Hok three_points eq_refl).
    repeat constructor; simpl; eexists; vm_compute; reflexivity.
Defined.

End WidgetFacts.
